(** * far-git-auto-completion: the reference-matching and suggestion engine

    A shallow embedding of [src/Logic.cpp] (classification of references,
    the two candidate selectors, the common prefix, the suggestion cycler and
    [TransformCmdLine]) and of the prefix trie declared in [src/Trie.hpp],
    followed by the properties the specification states about them.

    Conventions of the embedding.
    - A [const char *] or a [std::string] is the [string] of its bytes
      before the terminator; the test [*p == '\0'] is the test that the
      string at [p] is empty, [p + n] drops [n] bytes, [p++] drops one.
    - [size_t] is an unsigned integer of [size_t_bits] bits, written as a
      [Z] with its wrap-around spelled out.
    - The assertions are compiled in: a failed [assert] aborts the process.
      Indexing a vector out of range and calling a helper outside its
      contract are undefined.  The three ways a call can end are the
      constructors of [exec].
    - The backend is the one that answers: [git_reference_iterator_new]
      gives an iterator and [git_reference_next] ends with [GIT_ITEROVER].
      A repository is the finite sequence of names that an enumeration
      yields, and the properties of a run are stated for enumerations that
      yield the names of the repository.  [ObtainSuitableRefsBy_backend]
      takes the answers of [git_reference_next] as an input and adds the
      final [assert(error == GIT_ITEROVER)]; what libgit2 does inside a
      call is not modelled.
    - The diagnostic stream [logFile] is write-only; only the line written
      by [FilterReferences] is kept, since a property is stated about it. *)

From Stdlib Require Import ZArith List String Ascii Bool Lia Arith.
From Stdlib Require Import Sorted Permutation OrderedTypeEx.
Import ListNotations.
Local Open Scope string_scope.
Set Warnings "-register-all".

(** ** The C library: <cctype> and <cstring> *)

Module CType.

Definition code (c : ascii) : N := N_of_ascii c.

Definition between (lo hi : N) (c : ascii) : bool :=
  (lo <=? code c)%N && (code c <=? hi)%N.

(** [isupper] in the "C" locale: 'A' .. 'Z'. *)
Definition isupper (c : ascii) : bool := between 65 90 c.

(** [ispunct] in the "C" locale: the printable characters that are neither
    alphanumeric nor the space.  A byte above 127 is in neither class. *)
Definition ispunct (c : ascii) : bool :=
  between 33 47 c || between 58 64 c || between 91 96 c || between 123 126 c.

End CType.

Module CString.

(** [strlen]. *)
Definition strlen (s : string) : nat := String.length s.

(** [p + n] for [n <= strlen p]. *)
Fixpoint ptr_add (p : string) (n : nat) {struct n} : string :=
  match n, p with
  | O, _ => p
  | S n', String _ p' => ptr_add p' n'
  | S _, EmptyString => EmptyString
  end.

(** [p++] for a [p] that is not at the terminator. *)
Definition ptr_inc (p : string) : string := ptr_add p 1.

(** [strchr(s, c)] for [c] other than the terminator: the position of the
    first [c] in [s], as the string that starts there, or the null pointer. *)
Fixpoint strchr (s : string) (c : ascii) : option string :=
  match s with
  | EmptyString => None
  | String a s' => if Ascii.eqb a c then Some s else strchr s' c
  end.

End CString.

Import CType CString.

(** ** Utils.hpp *)

(** Modelled from the spec: [StartsWith] of Utils.hpp, which is not among the
    sources.  "name starts with currentPrefix (byte-wise, case-sensitive)". *)
Definition StartsWith (str prefix : string) : bool := String.prefix prefix str.

(** Modelled from the spec: [DropPrefix] of Utils.hpp, which is not among the
    sources.  "Return the selected candidate with currentPrefix stripped from
    its front (candidate is guaranteed to start with currentPrefix)".  Nothing
    is said of a string that does not start with the prefix: there is no
    result for it. *)
Fixpoint DropPrefix (str prefix : string) {struct prefix} : option string :=
  match prefix, str with
  | EmptyString, _ => Some str
  | String p prefix', String c str' =>
      if Ascii.eqb p c then DropPrefix str' prefix' else None
  | String _ _, EmptyString => None
  end.

(** ** Outcomes of a call *)

Inductive exec (A : Type) : Type :=
| Done (a : A)          (* the call returns *)
| AssertionFailed       (* an [assert] fails: the process aborts *)
| Undefined.            (* undefined behaviour *)

Arguments Done {A} a.
Arguments AssertionFailed {A}.
Arguments Undefined {A}.

Definition bind {A B : Type} (m : exec A) (k : A -> exec B) : exec B :=
  match m with
  | Done a => k a
  | AssertionFailed => AssertionFailed
  | Undefined => Undefined
  end.

Notation "x <- m ;; k" := (bind m (fun x => k))
  (at level 61, m at next level, right associativity).

(** ** Logic.cpp: the reference classifier *)

(** Modelled from the spec: [Options] of GitAutocomplete.hpp, which is not
    among the sources.  "stripRemoteName: bool, suggestNextSuffix: bool
    (direction of cycling), showDialog: bool". *)
Record Options : Type := mkOptions {
  stripRemoteName : bool;
  suggestNextSuffix : bool;
  showDialog : bool
}.

(** What one call of [FilterReferences] does: the arguments it passes to the
    callback [filterOneRef], in order, the lines it writes to the log, and how
    it ends.  The callback returns nothing and the control flow of
    [FilterReferences] does not depend on it, so this trace determines the
    call for every callback. *)
Record Classified : Type := mkClassified {
  emitted : list string;
  logged : list string;
  ending : exec unit
}.

Definition prefixes : list string := ["refs/heads/"; "refs/tags/"].

Definition remotePrefix : string := "refs/remotes/".

(** The loop over [prefixes]: the first one [ref] starts with, if any, gives
    the single argument [ref + strlen(prefixes[i])]. *)
Fixpoint first_prefix (ps : list string) (ref : string) : option string :=
  match ps with
  | [] => None
  | p :: ps' =>
      if StartsWith ref p then Some (ptr_add ref (strlen p))
      else first_prefix ps' ref
  end.

Definition FilterReferences (options : Options) (ref : string) : Classified :=
  match first_prefix prefixes ref with
  | Some short => mkClassified [short] [] (Done tt)
  | None =>
      if StartsWith ref remotePrefix then
        let remoteRef := ptr_add ref (strlen remotePrefix) in
        if stripRemoteName options then
          match strchr remoteRef "/"%char with
          | None => mkClassified [remoteRef] [] AssertionFailed
          | Some slashPtr =>
              mkClassified [remoteRef; ptr_inc slashPtr] [] (Done tt)
          end
        else mkClassified [remoteRef] [] (Done tt)
      else mkClassified [] ["Ignored ref = " ++ ref] (Done tt)
  end.

(** ** Logic.cpp: the candidate selectors *)

(** The repository is the finite sequence of reference names that
    [git_reference_next] yields before [GIT_ITEROVER].  [ObtainSuitableRefsBy]
    below is the loop over these names, for an enumeration that ends with
    [GIT_ITEROVER]; [ObtainSuitableRefsBy_backend] further down is the
    function with the last answer of the backend as an input and the final
    [assert(error == GIT_ITEROVER)]. *)
Definition git_repository : Type := list string.

Fixpoint ObtainSuitableRefsBy (options : Options) (repo : git_repository)
    (suitableRefs : list string) (isSuitableRef : string -> bool)
    : exec (list string) :=
  match repo with
  | [] => Done suitableRefs
  | ref :: repo' =>
      let c := FilterReferences options ref in
      _ <- ending c ;;
      ObtainSuitableRefsBy options repo'
        (suitableRefs ++ filter isSuitableRef (emitted c)) isSuitableRef
  end.

Definition ObtainSuitableRefsByStrictPrefix (options : Options)
    (repo : git_repository) (currentPrefix : string)
    (suitableRefs : list string) : exec (list string) :=
  ObtainSuitableRefsBy options repo suitableRefs
    (fun refName => StartsWith refName currentPrefix).

Fixpoint RefMayBeEncodedByPartialPrefix (ref prefix : string) : bool :=
  match prefix with
  | EmptyString => true
  | String p prefix' =>
      if ispunct p || isupper p then
        match strchr ref p with
        | None => false
        | Some r => RefMayBeEncodedByPartialPrefix (ptr_inc r) prefix'
        end
      else
        match ref with
        | EmptyString => false
        | String c ref' =>
            if Ascii.eqb p c then RefMayBeEncodedByPartialPrefix ref' prefix'
            else false
        end
  end.

Definition ObtainSuitableRefsByPartialPrefixes (options : Options)
    (repo : git_repository) (currentPrefix : string)
    (suitableRefs : list string) : exec (list string) :=
  ObtainSuitableRefsBy options repo suitableRefs
    (fun refName => RefMayBeEncodedByPartialPrefix refName currentPrefix).

(** ** Trie.hpp: the prefix trie *)

(** Modelled from the spec: the trie of Trie.cpp, which is not among the
    sources; only its interface [trie_create], [trie_add],
    [trie_get_common_prefix], [trie_free] is declared in Trie.hpp.  "Nodes
    represent shared character sequences; the root-to-longest-shared-branch
    path is the common prefix."  A node records whether an inserted string
    ends at it, and its children by their first character, in the order in
    which they were created. *)
Inductive Trie : Type :=
| TrieNode (terminal : bool) (children : list (ascii * Trie)).

(** Modelled from the spec: [trie_create() -> Trie], the trie with no string. *)
Definition trie_create : Trie := TrieNode false [].

(** Modelled from the spec: the step of [add] at one node.  The child for
    the character [c] is replaced by [descend] of it; when there is none,
    [descend] of a fresh node is appended as the child for [c]. *)
Fixpoint update_child (c : ascii) (descend : Trie -> Trie)
    (children : list (ascii * Trie)) : list (ascii * Trie) :=
  match children with
  | [] => [(c, descend trie_create)]
  | (d, t) :: children' =>
      if Ascii.eqb d c then (d, descend t) :: children'
      else (d, t) :: update_child c descend children'
  end.

(** Modelled from the spec: [add(trie, string)].  The string is followed from
    the root, one character per level; the child for a character is created
    when it is missing; the node reached at the end is marked. *)
Fixpoint trie_add (trie : Trie) (str : string) {struct str} : Trie :=
  match trie, str with
  | TrieNode _ children, EmptyString => TrieNode true children
  | TrieNode terminal children, String c str' =>
      TrieNode terminal (update_child c (fun t => trie_add t str') children)
  end.

(** Modelled from the spec: [commonPrefix(trie) -> string].  The path from
    the root that is shared by every inserted string: it goes on as long as
    the node is not the end of an inserted string and has exactly one
    child. *)
Fixpoint trie_get_common_prefix (trie : Trie) : string :=
  match trie with
  | TrieNode false [(c, t)] => String c (trie_get_common_prefix t)
  | TrieNode _ _ => EmptyString
  end.

(** ** Logic.cpp: the common prefix of the candidates *)

Definition FindCommonPrefix (suitableRefs : list string) : string :=
  let trie := fold_left trie_add suitableRefs trie_create in
  trie_get_common_prefix trie.

(** ** <algorithm>: [std::sort] and [std::unique] on a vector of strings *)

(** [operator<] of [std::string] compares the bytes as unsigned characters,
    which is [String.ltb].  It is a strict total order, so the vector that
    [std::sort] leaves does not depend on the algorithm (proved below as
    [candidate_set_sorted_unique]); insertion sort stands for it. *)
Fixpoint sort_insert (x : string) (l : list string) : list string :=
  match l with
  | [] => [x]
  | y :: l' => if String.ltb x y then x :: l else y :: sort_insert x l'
  end.

Definition sort (l : list string) : list string :=
  fold_right sort_insert [] l.

(** [v.erase(unique(v.begin(), v.end()), v.end())]: of every run of equal
    consecutive elements only the first is kept. *)
Fixpoint unique (l : list string) : list string :=
  match l with
  | [] => []
  | x :: l' =>
      match l' with
      | [] => [x]
      | y :: _ => if String.eqb x y then unique l' else x :: unique l'
      end
  end.

(** ** Logic.cpp: the suggestion cycler *)

(** The width of [size_t] on the target the plugin is built for. *)
Class Target : Type := { size_t_bits : Z }.

Definition x86 : Target := {| size_t_bits := 32 |}.
Definition x64 : Target := {| size_t_bits := 64 |}.

Section SizeT.
Context {target : Target}.

(** Conversion to [size_t], and the sum of two [size_t]. *)
Definition to_size_t (i : Z) : Z := (i mod 2 ^ size_t_bits)%Z.
Definition size_add (a b : Z) : Z := to_size_t (a + b).
Definition size_sub (a b : Z) : Z := to_size_t (a - b).

(** The greatest distance between two iterators, [PTRDIFF_MAX]; no vector
    is longer. *)
Definition PTRDIFF_MAX : Z := (2 ^ (size_t_bits - 1) - 1)%Z.

(** [distance(v.begin(), find(v.begin(), v.end(), x))]: the index of the first
    element equal to [x], or the size of [v]. *)
Fixpoint find_index (v : list string) (x : string) : nat :=
  match v with
  | [] => 0
  | y :: v' => if String.eqb y x then 0 else S (find_index v' x)
  end.

(** The index that [ObtainNextSuggestedSuffix] selects. *)
Definition next_index (forwardSearch : bool) (current : string)
    (suitableRefs : list string) : Z :=
  let size := Z.of_nat (List.length suitableRefs) in
  let idx := Z.of_nat (find_index suitableRefs current) in
  if (idx =? size)%Z then
    if forwardSearch then 0%Z else size_sub size 1
  else
    (size_add (size_add idx (to_size_t (if forwardSearch then 1 else -1))) size
      mod size)%Z.

(** [v[idx]]: undefined out of range. *)
Definition at_index (v : list string) (idx : Z) : exec string :=
  if ((0 <=? idx) && (idx <? Z.of_nat (List.length v)))%Z then
    match nth_error v (Z.to_nat idx) with
    | Some s => Done s
    | None => Undefined
    end
  else Undefined.

Definition ObtainNextSuggestedSuffix (forwardSearch : bool)
    (currentPrefix currentSuffix : string) (suitableRefs : list string)
    : exec string :=
  let idx := next_index forwardSearch (currentPrefix ++ currentSuffix)
               suitableRefs in
  ref <- at_index suitableRefs idx ;;
  match DropPrefix ref currentPrefix with
  | Some suffix => Done suffix
  | None => Undefined
  end.

End SizeT.

(** ** The collaborators of [TransformCmdLine] *)

(** Modelled from the spec: the command-line buffer of GitAutocomplete.hpp
    and the transcoding of Utils.hpp, which are not among the sources.
    "getUserPrefix() -> string; replaceUserPrefix(string);
    getSuggestedSuffix() -> string; replaceSuggestedSuffix(string).  All text
    is exchanged as Unicode strings at this boundary; the core's internal
    matching operates on a single-byte encoding and must transcode at the
    boundary."  [wempty] is the literal [L""]. *)
Class Host : Type := {
  wstring : Type;
  CmdLine : Type;
  wempty : wstring;
  w2mb : wstring -> string;
  mb2w : string -> wstring;
  GetUserPrefix : CmdLine -> wstring;
  GetSuggestedSuffix : CmdLine -> wstring;
  ReplaceUserPrefix : CmdLine -> wstring -> CmdLine;
  ReplaceSuggestedSuffix : CmdLine -> wstring -> CmdLine
}.

(** The laws of a buffer whose two regions are independent, which the
    properties of two consecutive invocations assume: a region is read back
    as it was written, writing one region leaves the other as it was, and a
    single-byte string survives the transcoding. *)
Record HostLaws (host : Host) : Prop := {
  w2mb_mb2w : forall s, w2mb (mb2w s) = s;
  w2mb_wempty : w2mb wempty = "";
  get_prefix_replace_prefix :
    forall c w, GetUserPrefix (ReplaceUserPrefix c w) = w;
  get_suffix_replace_suffix :
    forall c w, GetSuggestedSuffix (ReplaceSuggestedSuffix c w) = w;
  get_prefix_replace_suffix :
    forall c w, GetUserPrefix (ReplaceSuggestedSuffix c w) = GetUserPrefix c;
  get_suffix_replace_prefix :
    forall c w, GetSuggestedSuffix (ReplaceUserPrefix c w) = GetSuggestedSuffix c
}.

(** Modelled from the spec: "conceptually the user-visible text is
    userPrefix + suggestedSuffix, where userPrefix is editable by the user and
    suggestedSuffix is engine-controlled".  The buffer with exactly these two
    regions, and text that is single-byte on both sides of the boundary. *)
Record SplitLine : Type := mkSplitLine {
  userPrefix : string;
  suggestedSuffix : string
}.

Definition SplitHost : Host := {|
  wstring := string;
  CmdLine := SplitLine;
  wempty := "";
  w2mb := fun w => w;
  mb2w := fun s => s;
  GetUserPrefix := userPrefix;
  GetSuggestedSuffix := suggestedSuffix;
  ReplaceUserPrefix := fun c w => mkSplitLine w (suggestedSuffix c);
  ReplaceSuggestedSuffix := fun c w => mkSplitLine (userPrefix c) w
|}.

(** ** Logic.cpp: the orchestrator *)

Section Orchestrator.
Context {target : Target} {host : Host}.

(** The candidates of one invocation, before they are sorted: the strict
    prefix selection, and the partial prefix selection when it found none. *)
Definition SelectSuitableRefs (options : Options) (repo : git_repository)
    (currentPrefix : string) : exec (list string) :=
  suitableRefs <- ObtainSuitableRefsByStrictPrefix options repo currentPrefix [] ;;
  match suitableRefs with
  | [] => ObtainSuitableRefsByPartialPrefixes options repo currentPrefix suitableRefs
  | _ :: _ => Done suitableRefs
  end.

(** [ShowRefsDialog] is the answer of the user to the dialog of this
    invocation: the selected reference, or the empty string. *)
Definition TransformCmdLine (ShowRefsDialog : list string -> string -> string)
    (options : Options) (cmdLine : CmdLine) (repo : git_repository)
    : exec CmdLine :=
  let currentPrefix := w2mb (GetUserPrefix cmdLine) in
  suitableRefs <- SelectSuitableRefs options repo currentPrefix ;;
  match suitableRefs with
  | [] => Done cmdLine
  | _ :: _ =>
      let suitableRefs := unique (sort suitableRefs) in
      let newPrefix := FindCommonPrefix suitableRefs in
      if negb (String.eqb newPrefix currentPrefix) then
        Done (ReplaceUserPrefix cmdLine (mb2w newPrefix))
      else
        let currentSuffix := w2mb (GetSuggestedSuffix cmdLine) in
        if showDialog options then
          let selectedRef :=
            ShowRefsDialog suitableRefs (currentPrefix ++ currentSuffix) in
          if negb (String.eqb selectedRef "") then
            Done (ReplaceUserPrefix (ReplaceSuggestedSuffix cmdLine wempty)
                    (mb2w selectedRef))
          else Done cmdLine
        else
          newSuffix <- ObtainNextSuggestedSuffix (suggestNextSuffix options)
                         currentPrefix currentSuffix suitableRefs ;;
          Done (ReplaceSuggestedSuffix cmdLine (mb2w newSuffix))
  end.

End Orchestrator.

(** ** The specification's own notions *)

(** The specification of the partial-prefix matcher, as a walk with two
    cursors.  [SpecWalk ref r prefix] says that the walk over the rest
    [prefix] of the typed text succeeds when the cursor into [ref] stands at
    index [r]. *)
Definition is_marker (p : ascii) : bool := ispunct p || isupper p.

Inductive SpecWalk (ref : string) : nat -> string -> Prop :=
| walk_exhausted : forall r,
    SpecWalk ref r EmptyString
| walk_marker : forall r k p prefix',
    is_marker p = true ->
    r <= k ->
    String.get k ref = Some p ->
    (forall j, r <= j < k -> String.get j ref <> Some p) ->
    SpecWalk ref (S k) prefix' ->
    SpecWalk ref r (String p prefix')
| walk_literal : forall r p prefix',
    is_marker p = false ->
    String.get r ref = Some p ->
    SpecWalk ref (S r) prefix' ->
    SpecWalk ref r (String p prefix').

(** [x] is located at index [i] of [v]: it is there, and nowhere before. *)
Definition located (v : list string) (x : string) (i : nat) : Prop :=
  nth_error v i = Some x /\ forall j, j < i -> nth_error v j <> Some x.

(** [p] is a prefix of [s]. *)
Definition is_prefix (p s : string) : Prop := exists rest, s = p ++ rest.

(** [p] is a prefix of every string of [l]. *)
Definition common_prefix (p : string) (l : list string) : Prop :=
  forall s, In s l -> is_prefix p s.

(** [s] has no ['/']. *)
Definition no_slash (s : string) : Prop :=
  forall k, String.get k s <> Some "/"%char.

(** [s] has at least one ['/']. *)
Definition has_slash (s : string) : Prop :=
  exists k, String.get k s = Some "/"%char.

(** The contract of the backend: a reference under [refs/remotes/] has a
    ['/'] after that prefix. *)
Definition well_formed_remote (ref : string) : Prop :=
  forall rest, ref = remotePrefix ++ rest -> has_slash rest.

(** The short names of a repository: every reference classified, in the
    order of the enumeration. *)
Definition short_names (options : Options) (repo : git_repository)
    : list string :=
  flat_map (fun ref => emitted (FilterReferences options ref)) repo.

(** The longest common prefix of two strings. *)
Fixpoint lcp2 (a b : string) : string :=
  match a, b with
  | String x a', String y b' =>
      if Ascii.eqb x y then String x (lcp2 a' b') else EmptyString
  | _, _ => EmptyString
  end.

(** What a trie stands for: nothing when no string was inserted, and the
    longest common prefix of the inserted strings otherwise.  Inserting a
    string into what a trie stands for. *)
Definition insert_lcp (o : option string) (s : string) : option string :=
  match o with
  | None => Some s
  | Some p => Some (lcp2 s p)
  end.

(** The trie with no string and no child. *)
Definition is_empty_trie (t : Trie) : bool :=
  match t with
  | TrieNode false [] => true
  | TrieNode _ _ => false
  end.

Definition trie_abstraction (t : Trie) : option string :=
  if is_empty_trie t then None else Some (trie_get_common_prefix t).

(** The invariant of the tries that [trie_add] builds: below the root no
    node is empty. *)
Fixpoint no_empty_child (t : Trie) : Prop :=
  match t with
  | TrieNode _ children =>
      (fix all (cs : list (ascii * Trie)) : Prop :=
         match cs with
         | [] => True
         | (_, t') :: cs' =>
             (is_empty_trie t' = false /\ no_empty_child t') /\ all cs'
         end) children
  end.

Definition child_ok (ct : ascii * Trie) : Prop :=
  is_empty_trie (snd ct) = false /\ no_empty_child (snd ct).

(** The postcondition of [std::sort]: no element is less than one before
    it. *)
Definition ascending (v : list string) : Prop :=
  StronglySorted (fun a b => String.ltb b a = false) v.

(** The six calls of the cycler oracle, on a given candidate list:
    forward from "xyz", from "bar" and from the empty suffix, then backward
    from "xyz", from "foo" and from the empty suffix, all with the prefix
    "abc". *)
Definition cycler_oracle (target : Target) (suitableRefs : list string)
    : list (exec string) :=
  map (fun '(forwardSearch, currentSuffix) =>
         ObtainNextSuggestedSuffix forwardSearch "abc" currentSuffix suitableRefs)
      [(true, "xyz"); (true, "bar"); (true, "");
       (false, "xyz"); (false, "foo"); (false, "")].

(** ** Notions for the further properties of the code *)

(** [ObtainSuitableRefsBy] with the answers of the backend as an input.
    The result of [git_reference_iterator_new] is never read: the loop
    condition overwrites [error] before any use.  So what the function sees
    of the backend is what [git_reference_next] answers: the names it yields
    with result 0 and its first other result, which the final assertion
    compares with [GIT_ITEROVER]. *)
Record git_enumeration : Type := mkEnumeration {
  yielded : git_repository;
  last_error : Z
}.

Definition ObtainSuitableRefsBy_backend (GIT_ITEROVER : Z) (options : Options)
    (enumeration : git_enumeration) (suitableRefs : list string)
    (isSuitableRef : string -> bool) : exec (list string) :=
  refs <- ObtainSuitableRefsBy options (yielded enumeration) suitableRefs
            isSuitableRef ;;
  if (last_error enumeration =? GIT_ITEROVER)%Z then Done refs
  else AssertionFailed.

(** No character of [s] is punctuation or an uppercase letter. *)
Fixpoint no_marker (s : string) : bool :=
  match s with
  | EmptyString => true
  | String c s' => negb (is_marker c) && no_marker s'
  end.

(** [p] is a subsequence of [s]: the characters of [p] occur in [s], in the
    same order. *)
Inductive subsequence : string -> string -> Prop :=
| subsequence_empty : forall s,
    subsequence EmptyString s
| subsequence_take : forall c p s,
    subsequence p s -> subsequence (String c p) (String c s)
| subsequence_skip : forall c p s,
    subsequence p s -> subsequence p (String c s).

(** [n] calls of the cycler in a row, each on the suffix that the call
    before it returned, as successive invocations of [TransformCmdLine] make
    them through the suggested-suffix region. *)
Fixpoint cycle {target : Target} (forwardSearch : bool) (n : nat)
    (currentPrefix currentSuffix : string) (suitableRefs : list string)
    : exec string :=
  match n with
  | O => Done currentSuffix
  | S n' =>
      newSuffix <- ObtainNextSuggestedSuffix forwardSearch currentPrefix
                     currentSuffix suitableRefs ;;
      cycle forwardSearch n' currentPrefix newSuffix suitableRefs
  end.

(** A reference under [refs/remotes/] with no ['/'] after that prefix. *)
Definition malformed_remote (ref : string) : Prop :=
  exists rest, ref = remotePrefix ++ rest /\ no_slash rest.

(** * Proofs *)

Lemma append_empty_r (s : string) : s ++ "" = s.
Proof. induction s as [|a s IH]; simpl; [reflexivity | now rewrite IH]. Qed.

Lemma append_assoc (s t u : string) : (s ++ t) ++ u = s ++ (t ++ u).
Proof. induction s as [|a s IH]; simpl; [reflexivity | now rewrite IH]. Qed.

(** ** Strings and cursors *)

Lemma ptr_add_0 (s : string) : ptr_add s 0 = s.
Proof. reflexivity. Qed.

Lemma ptr_add_empty (n : nat) : ptr_add EmptyString n = EmptyString.
Proof. destruct n; reflexivity. Qed.

Lemma ptr_add_plus (s : string) (n m : nat) :
  ptr_add (ptr_add s n) m = ptr_add s (n + m).
Proof.
  revert s; induction n as [|n IH]; intros s; simpl.
  - reflexivity.
  - destruct s as [|a s]; [apply ptr_add_empty | apply IH].
Qed.

Lemma ptr_inc_ptr_add (s : string) (n : nat) :
  ptr_inc (ptr_add s n) = ptr_add s (S n).
Proof. unfold ptr_inc. rewrite ptr_add_plus. f_equal. lia. Qed.

Lemma ptr_add_append (p s : string) : ptr_add (p ++ s) (strlen p) = s.
Proof. induction p as [|a p IH]; simpl; [apply ptr_add_0 | exact IH]. Qed.

Lemma get_ptr_add (s : string) (n k : nat) :
  String.get k (ptr_add s n) = String.get (n + k) s.
Proof.
  revert s; induction n as [|n IH]; intros s; simpl.
  - reflexivity.
  - destruct s as [|a s]; simpl; [destruct k; reflexivity | apply IH].
Qed.

Lemma ptr_add_cons (s : string) (n : nat) (c : ascii) (t : string) :
  ptr_add s n = String c t -> String.get n s = Some c /\ t = ptr_add s (S n).
Proof.
  intros E. split.
  - rewrite <- (Nat.add_0_r n), <- get_ptr_add, E. reflexivity.
  - rewrite <- ptr_inc_ptr_add, E. reflexivity.
Qed.

Lemma get_ptr_add_cons (s : string) (n : nat) (c : ascii) :
  String.get n s = Some c -> ptr_add s n = String c (ptr_add s (S n)).
Proof.
  revert s; induction n as [|n IH]; intros [|a s]; simpl; try discriminate.
  - intros [= ->]. reflexivity.
  - apply IH.
Qed.

Lemma strchr_found (s : string) (c : ascii) (r : string) :
  strchr s c = Some r ->
  exists k, r = ptr_add s k /\ String.get k s = Some c /\
            forall j, j < k -> String.get j s <> Some c.
Proof.
  revert r; induction s as [|a s IH]; intros r; simpl; [discriminate|].
  destruct (Ascii.eqb_spec a c) as [->|Hac].
  - intros [= <-]. exists 0.
    split; [reflexivity | split; [reflexivity | intros j Hj; lia]].
  - intros E. destruct (IH _ E) as (k & -> & Hk & Hmin).
    exists (S k). split; [reflexivity | split; [exact Hk |]].
    intros [|j] Hj; simpl; [congruence | apply Hmin; lia].
Qed.

Lemma strchr_first (s : string) (c : ascii) (k : nat) :
  String.get k s = Some c ->
  (forall j, j < k -> String.get j s <> Some c) ->
  strchr s c = Some (ptr_add s k).
Proof.
  revert k; induction s as [|a s IH]; intros k; simpl.
  - destruct k; discriminate.
  - destruct k as [|k]; simpl.
    + intros [= ->] _. now rewrite Ascii.eqb_refl.
    + intros Hk Hmin. destruct (Ascii.eqb_spec a c) as [->|Hac].
      * exfalso. apply (Hmin 0); [lia | reflexivity].
      * apply IH; trivial. intros j Hj. apply (Hmin (S j)). lia.
Qed.

Lemma strchr_none (s : string) (c : ascii) :
  strchr s c = None <-> forall k, String.get k s <> Some c.
Proof.
  induction s as [|a s IH]; simpl.
  - split; [intros _ [|k]; discriminate | reflexivity].
  - destruct (Ascii.eqb_spec a c) as [->|Hac].
    + split; [discriminate | intros H; exfalso; now apply (H 0)].
    + rewrite IH. split.
      * intros H [|k]; simpl; [congruence | apply H].
      * intros H k. apply (H (S k)).
Qed.

(** ** The partial-prefix matcher *)

Lemma matcher_walk (ref prefix : string) (n : nat) :
  RefMayBeEncodedByPartialPrefix (ptr_add ref n) prefix = true <->
  SpecWalk ref n prefix.
Proof.
  revert n; induction prefix as [|p prefix' IH]; intros n.
  - simpl. split; [intros _; constructor | reflexivity].
  - simpl. fold (is_marker p). destruct (is_marker p) eqn:Hm.
    + destruct (strchr (ptr_add ref n) p) as [r|] eqn:Hs.
      * destruct (strchr_found _ _ _ Hs) as (k & -> & Hk & Hmin).
        rewrite get_ptr_add in Hk.
        rewrite ptr_add_plus, ptr_inc_ptr_add, IH.
        assert (Hfirst : forall j, n <= j < n + k -> String.get j ref <> Some p).
        { intros j Hj. replace j with (n + (j - n)) by lia.
          rewrite <- get_ptr_add. apply Hmin. lia. }
        split.
        -- intros W. apply walk_marker with (k := n + k); trivial. lia.
        -- intros W. inversion W as [|r k' p0 q Hm' Hle Hk' Hmin' W'|]; subst.
           ++ assert (k' = n + k) as ->; [|exact W'].
              destruct (Nat.lt_trichotomy k' (n + k)) as [Hlt|[Heq|Hgt]];
                trivial; exfalso.
              ** apply (Hfirst k'); [lia | trivial].
              ** apply (Hmin' (n + k)); [lia | trivial].
           ++ congruence.
      * split; [discriminate|].
        intros W. exfalso.
        rewrite strchr_none in Hs.
        inversion W as [|r k' p0 q Hm' Hle Hk' Hmin' W'|]; subst.
        -- apply (Hs (k' - n)). rewrite get_ptr_add.
           replace (n + (k' - n)) with k' by lia. trivial.
        -- congruence.
    + destruct (ptr_add ref n) as [|c t] eqn:Hr.
      * split; [discriminate|].
        intros W. exfalso.
        inversion W as [| |r p0 q Hm' Hg W']; subst; [congruence|].
        apply get_ptr_add_cons in Hg. congruence.
      * apply ptr_add_cons in Hr. destruct Hr as [Hg ->].
        destruct (Ascii.eqb_spec p c) as [->|Hpc].
        -- rewrite IH. split.
           ++ intros W. now apply walk_literal.
           ++ intros W. inversion W; subst; [congruence | trivial].
        -- split; [discriminate|].
           intros W. exfalso.
           inversion W as [| |r p0 q Hm' Hg' W']; subst; congruence.
Qed.

(** C1.  [RefMayBeEncodedByPartialPrefix ref prefix] is true exactly when the
    left-to-right walk of the specification over [prefix] succeeds from the
    start of [ref]: an exhausted prefix succeeds; a punctuation or uppercase
    character moves the cursor of [ref] to the first occurrence of that
    character at or after the cursor, fails when there is none, and both
    cursors move past it; any other character has to be the character under
    the cursor of [ref], and both cursors move by one.  The nine oracle cases
    of the specification hold. *)
Theorem RefMayBeEncodedByPartialPrefix_spec_walk :
  (forall ref prefix : string,
      RefMayBeEncodedByPartialPrefix ref prefix = true <->
      SpecWalk ref 0 prefix) /\
  RefMayBeEncodedByPartialPrefix "svn/trunk" "s/t" = true /\
  RefMayBeEncodedByPartialPrefix "foo/bar/qux" "f/b" = true /\
  RefMayBeEncodedByPartialPrefix "foo/bar/qux" "f/b/q" = true /\
  RefMayBeEncodedByPartialPrefix "foo/bar-qux" "f/b-q" = true /\
  RefMayBeEncodedByPartialPrefix "foo/barQux" "f/bQ" = true /\
  RefMayBeEncodedByPartialPrefix "foo/bar/qux" "fo/baz/q" = false /\
  RefMayBeEncodedByPartialPrefix "foo" "f/b" = false /\
  RefMayBeEncodedByPartialPrefix "foo/" "f/b" = false /\
  RefMayBeEncodedByPartialPrefix "foo/b" "f/bar" = false.
Proof.
  split.
  - intros ref prefix. rewrite <- (matcher_walk ref prefix 0).
    now rewrite ptr_add_0.
  - repeat split; reflexivity.
Qed.

(** ** [DropPrefix] and [StartsWith] *)

Lemma DropPrefix_iff (str prefix suffix : string) :
  DropPrefix str prefix = Some suffix <-> str = prefix ++ suffix.
Proof.
  revert str; induction prefix as [|p prefix IH]; intros str; simpl.
  - split; [intros [= ->] | intros ->]; reflexivity.
  - destruct str as [|c str]; [split; discriminate|].
    destruct (Ascii.eqb_spec p c) as [->|Hpc].
    + rewrite IH. split; [intros -> | intros [= ->]]; reflexivity.
    + split; [discriminate | intros [= -> _]; congruence].
Qed.

Lemma DropPrefix_append (prefix suffix : string) :
  DropPrefix (prefix ++ suffix) prefix = Some suffix.
Proof. now apply DropPrefix_iff. Qed.

Lemma StartsWith_iff (str prefix : string) :
  StartsWith str prefix = true <-> is_prefix prefix str.
Proof.
  unfold StartsWith, is_prefix.
  revert str; induction prefix as [|p prefix IH]; intros str.
  - destruct str; simpl; (split; [intros _; eexists; reflexivity | reflexivity]).
  - destruct str as [|c str]; simpl.
    + split; [discriminate | intros [rest [=]]].
    + destruct (ascii_dec p c) as [->|Hpc].
      * rewrite IH. split; intros [rest E]; exists rest; congruence.
      * split; [discriminate | intros [rest [= -> _]]; congruence].
Qed.

Lemma StartsWith_append (prefix rest : string) :
  StartsWith (prefix ++ rest) prefix = true.
Proof. apply StartsWith_iff. now exists rest. Qed.

(** ** The suggestion cycler *)

Section Cycler.
Context {target : Target}.

Lemma find_index_le (v : list string) (x : string) :
  find_index v x <= List.length v.
Proof.
  induction v as [|y v IH]; simpl; [lia|].
  destruct (String.eqb y x); lia.
Qed.

Lemma find_index_located (v : list string) (x : string) (i : nat) :
  located v x i -> find_index v x = i.
Proof.
  revert i; induction v as [|y v IH]; intros i [Hi Hmin].
  - destruct i; discriminate.
  - simpl. destruct (String.eqb_spec y x) as [->|Hyx].
    + destruct i as [|i]; trivial.
      exfalso. apply (Hmin 0); [lia | reflexivity].
    + destruct i as [|i]; simpl in Hi; [congruence|].
      f_equal. apply IH. split; trivial.
      intros j Hj. apply (Hmin (S j)). lia.
Qed.

Lemma find_index_missing (v : list string) (x : string) :
  ~ In x v -> find_index v x = List.length v.
Proof.
  induction v as [|y v IH]; simpl; intros Hx; trivial.
  destruct (String.eqb_spec y x) as [->|Hyx]; [tauto|].
  f_equal. apply IH. tauto.
Qed.

Lemma find_index_found (v : list string) (x : string) :
  find_index v x < List.length v -> located v x (find_index v x).
Proof.
  induction v as [|y v IH]; simpl; [lia|].
  destruct (String.eqb_spec y x) as [->|Hyx]; intros Hlt.
  - split; [reflexivity | intros j Hj; lia].
  - destruct IH as [Hi Hmin]; [lia|]. split; trivial.
    intros [|j] Hj; simpl; [congruence | apply Hmin; lia].
Qed.

Lemma located_In (v : list string) (x : string) (i : nat) :
  located v x i -> In x v /\ i < List.length v.
Proof.
  intros [Hi _]. split; [eapply nth_error_In; eauto|].
  apply nth_error_Some. congruence.
Qed.

(** A vector that is not longer than [PTRDIFF_MAX] leaves room for the sums
    that [ObtainNextSuggestedSuffix] computes. *)
Lemma size_t_room (N : Z) :
  (1 <= N <= PTRDIFF_MAX -> 2 * N + 2 <= 2 ^ size_t_bits)%Z.
Proof.
  unfold PTRDIFF_MAX. intros [H1 HN].
  assert (Hw : (0 <= size_t_bits - 1)%Z).
  { destruct (Z.le_gt_cases 0 (size_t_bits - 1)) as [|Hneg]; trivial.
    rewrite (Z.pow_neg_r 2 (size_t_bits - 1)) in HN; lia. }
  replace size_t_bits with (Z.succ (size_t_bits - 1)) at 1 by lia.
  rewrite Z.pow_succ_r by trivial. lia.
Qed.

Lemma next_index_found (forwardSearch : bool) (v : list string) (x : string)
    (i : nat) :
  (Z.of_nat (List.length v) <= PTRDIFF_MAX)%Z ->
  located v x i ->
  next_index forwardSearch x v =
  (if forwardSearch then (Z.of_nat i + 1) mod Z.of_nat (List.length v)
   else (Z.of_nat i - 1 + Z.of_nat (List.length v)) mod Z.of_nat (List.length v))%Z.
Proof.
  intros Hmax Hloc. unfold next_index.
  rewrite (find_index_located _ _ _ Hloc).
  destruct (located_In _ _ _ Hloc) as [_ Hi].
  set (N := Z.of_nat (List.length v)) in *.
  assert (Hroom := size_t_room N ltac:(lia)).
  destruct (Z.eqb_spec (Z.of_nat i) N) as [E|_]; [lia|].
  unfold size_add, to_size_t.
  rewrite Zplus_mod_idemp_r, Zplus_mod_idemp_l.
  destruct forwardSearch.
  - rewrite (Z.mod_small (Z.of_nat i + 1 + N)) by lia.
    replace (Z.of_nat i + 1 + N)%Z with (Z.of_nat i + 1 + 1 * N)%Z by lia.
    now rewrite Z.mod_add by lia.
  - rewrite (Z.mod_small (Z.of_nat i + -1 + N)) by lia.
    reflexivity.
Qed.

Lemma next_index_missing (forwardSearch : bool) (v : list string) (x : string) :
  v <> [] ->
  (Z.of_nat (List.length v) <= PTRDIFF_MAX)%Z ->
  ~ In x v ->
  next_index forwardSearch x v =
  (if forwardSearch then 0 else Z.of_nat (List.length v) - 1)%Z.
Proof.
  intros Hne Hmax Hx. unfold next_index.
  rewrite (find_index_missing _ _ Hx), Z.eqb_refl.
  destruct forwardSearch; trivial.
  assert (0 < List.length v) by (destruct v; simpl; [congruence | lia]).
  assert (Hroom := size_t_room (Z.of_nat (List.length v)) ltac:(lia)).
  unfold size_sub, to_size_t. apply Z.mod_small. lia.
Qed.

Lemma next_index_range (forwardSearch : bool) (v : list string) (x : string) :
  v <> [] ->
  (Z.of_nat (List.length v) <= PTRDIFF_MAX)%Z ->
  (0 <= next_index forwardSearch x v < Z.of_nat (List.length v))%Z.
Proof.
  intros Hne Hmax.
  assert (0 < List.length v) by (destruct v; simpl; [congruence | lia]).
  destruct (Nat.eq_dec (find_index v x) (List.length v)) as [E|NE].
  - unfold next_index. rewrite E, Z.eqb_refl.
    destruct forwardSearch; [lia|].
    assert (Hroom := size_t_room (Z.of_nat (List.length v)) ltac:(lia)).
    unfold size_sub, to_size_t. rewrite Z.mod_small; lia.
  - assert (Hlt : find_index v x < List.length v).
    { pose proof (find_index_le v x). lia. }
    rewrite (next_index_found _ _ _ _ Hmax (find_index_found _ _ Hlt)).
    destruct forwardSearch; apply Z.mod_pos_bound; lia.
Qed.

Lemma at_index_nth (v : list string) (k : nat) (s : string) :
  nth_error v k = Some s -> at_index v (Z.of_nat k) = Done s.
Proof.
  intros Hk. unfold at_index.
  assert (k < List.length v) by (apply nth_error_Some; congruence).
  destruct (Z.leb_spec 0 (Z.of_nat k)); [|lia].
  destruct (Z.ltb_spec (Z.of_nat k) (Z.of_nat (List.length v))); [|lia].
  simpl. now rewrite Nat2Z.id, Hk.
Qed.

(** The cycler as a whole: the index it selects is in range, and the result
    is the candidate there without the prefix. *)
Lemma cycler_selects (forwardSearch : bool) (currentPrefix currentSuffix : string)
    (suitableRefs : list string) :
  suitableRefs <> [] ->
  (Z.of_nat (List.length suitableRefs) <= PTRDIFF_MAX)%Z ->
  exists (k : nat) (candidate : string),
    next_index forwardSearch (currentPrefix ++ currentSuffix) suitableRefs
      = Z.of_nat k /\
    nth_error suitableRefs k = Some candidate /\
    ObtainNextSuggestedSuffix forwardSearch currentPrefix currentSuffix
      suitableRefs =
    match DropPrefix candidate currentPrefix with
    | Some suffix => Done suffix
    | None => Undefined
    end.
Proof.
  intros Hne Hmax.
  pose proof (next_index_range forwardSearch suitableRefs
                (currentPrefix ++ currentSuffix) Hne Hmax) as Hr.
  set (idx := next_index forwardSearch (currentPrefix ++ currentSuffix)
                suitableRefs) in *.
  assert (Hk : Z.to_nat idx < List.length suitableRefs) by lia.
  apply nth_error_Some in Hk.
  destruct (nth_error suitableRefs (Z.to_nat idx)) as [candidate|] eqn:Hn;
    [|congruence].
  exists (Z.to_nat idx), candidate.
  split; [lia | split; [exact Hn|]].
  unfold ObtainNextSuggestedSuffix. fold idx.
  replace idx with (Z.of_nat (Z.to_nat idx)) by lia.
  now rewrite (at_index_nth _ _ _ Hn).
Qed.

(** C2.  On a non-empty candidate list of [N] entries,
    [ObtainNextSuggestedSuffix] locates [currentPrefix ++ currentSuffix]; when
    it is found at index [i] the new index is [(i + 1) mod N] forward and
    [(i - 1 + N) mod N] backward; when it is not found the new index is [0]
    forward and [N - 1] backward; the result is the candidate at the new
    index with [currentPrefix] stripped from its front. *)
Theorem ObtainNextSuggestedSuffix_cycles (forwardSearch : bool)
    (currentPrefix currentSuffix : string) (suitableRefs : list string) :
  suitableRefs <> [] ->
  (Z.of_nat (List.length suitableRefs) <= PTRDIFF_MAX)%Z ->
  let N := Z.of_nat (List.length suitableRefs) in
  let current := currentPrefix ++ currentSuffix in
  exists (k : nat) (candidate : string),
    next_index forwardSearch current suitableRefs = Z.of_nat k /\
    (forall i, located suitableRefs current i ->
       Z.of_nat k = if forwardSearch then (Z.of_nat i + 1) mod N
                    else (Z.of_nat i - 1 + N) mod N)%Z /\
    (~ In current suitableRefs ->
       Z.of_nat k = if forwardSearch then 0 else N - 1)%Z /\
    nth_error suitableRefs k = Some candidate /\
    ObtainNextSuggestedSuffix forwardSearch currentPrefix currentSuffix
      suitableRefs =
    match DropPrefix candidate currentPrefix with
    | Some suffix => Done suffix
    | None => Undefined
    end /\
    (forall suffix, candidate = currentPrefix ++ suffix ->
       ObtainNextSuggestedSuffix forwardSearch currentPrefix currentSuffix
         suitableRefs = Done suffix).
Proof.
  intros Hne Hmax N current.
  destruct (cycler_selects forwardSearch currentPrefix currentSuffix
              suitableRefs Hne Hmax) as (k & candidate & Hk & Hn & Hres).
  exists k, candidate. fold current in Hk.
  split; [exact Hk|]. split; [|split; [|split; [exact Hn|split; [exact Hres|]]]].
  - intros i Hloc. rewrite <- Hk. now apply next_index_found.
  - intros Hx. rewrite <- Hk. now apply next_index_missing.
  - intros suffix ->. now rewrite Hres, DropPrefix_append.
Qed.

Lemma cycler_lands_on_prefix (forwardSearch : bool)
    (currentPrefix currentSuffix : string) (suitableRefs : list string)
    (k : nat) :
  next_index forwardSearch (currentPrefix ++ currentSuffix) suitableRefs
    = Z.of_nat k ->
  nth_error suitableRefs k = Some currentPrefix ->
  ObtainNextSuggestedSuffix forwardSearch currentPrefix currentSuffix
    suitableRefs = Done "".
Proof.
  intros Hk Hn. unfold ObtainNextSuggestedSuffix.
  rewrite Hk, (at_index_nth _ _ _ Hn). simpl.
  rewrite <- (append_empty_r currentPrefix) at 1.
  now rewrite DropPrefix_append.
Qed.

(** C10.  When [currentPrefix] itself is a candidate, an empty
    [currentSuffix] does not take the not-found fallback: the current text is
    found at the index of that candidate and the cycler moves one step from
    there.  Whenever the step lands on the candidate equal to
    [currentPrefix], the new suffix is the empty string.  The four cases of
    [LogicTest] on the list abc, abcxyz, abcbar hold. *)
Theorem ObtainNextSuggestedSuffix_prefix_is_candidate :
  (forall (forwardSearch : bool) (currentPrefix : string)
          (suitableRefs : list string) (i : nat),
      (Z.of_nat (List.length suitableRefs) <= PTRDIFF_MAX)%Z ->
      located suitableRefs currentPrefix i ->
      let N := Z.of_nat (List.length suitableRefs) in
      find_index suitableRefs (currentPrefix ++ "") = i /\
      i < List.length suitableRefs /\
      next_index forwardSearch (currentPrefix ++ "") suitableRefs =
      (if forwardSearch then (Z.of_nat i + 1) mod N
       else (Z.of_nat i - 1 + N) mod N)%Z) /\
  (forall (forwardSearch : bool) (currentPrefix currentSuffix : string)
          (suitableRefs : list string) (k : nat),
      next_index forwardSearch (currentPrefix ++ currentSuffix) suitableRefs
        = Z.of_nat k ->
      nth_error suitableRefs k = Some currentPrefix ->
      ObtainNextSuggestedSuffix forwardSearch currentPrefix currentSuffix
        suitableRefs = Done "") /\
  ((3 <= PTRDIFF_MAX)%Z ->
   let suitableRefs := ["abc"; "abcxyz"; "abcbar"] in
   ObtainNextSuggestedSuffix true "abc" "bar" suitableRefs = Done "" /\
   ObtainNextSuggestedSuffix true "abc" "" suitableRefs = Done "xyz" /\
   ObtainNextSuggestedSuffix false "abc" "" suitableRefs = Done "bar" /\
   ObtainNextSuggestedSuffix false "abc" "xyz" suitableRefs = Done "").
Proof.
  split; [|split].
  - intros forwardSearch currentPrefix suitableRefs i Hmax Hloc N.
    rewrite append_empty_r.
    split; [now apply find_index_located|].
    split; [now apply (located_In _ _ _ Hloc)|].
    now apply next_index_found.
  - exact cycler_lands_on_prefix.
  - intros Hmax suitableRefs.
    assert (Hne : suitableRefs <> []) by discriminate.
    assert (step : forall (forwardSearch : bool) currentSuffix i k candidate suffix,
               located suitableRefs ("abc" ++ currentSuffix) i ->
               (if forwardSearch then (Z.of_nat i + 1) mod 3
                else (Z.of_nat i - 1 + 3) mod 3)%Z = Z.of_nat k ->
               nth_error suitableRefs k = Some candidate ->
               DropPrefix candidate "abc" = Some suffix ->
               ObtainNextSuggestedSuffix forwardSearch "abc" currentSuffix
                 suitableRefs = Done suffix).
    { intros forwardSearch currentSuffix i k candidate suffix Hloc Hk Hn Hd.
      unfold ObtainNextSuggestedSuffix.
      rewrite (next_index_found forwardSearch suitableRefs _ _ Hmax Hloc).
      change (Z.of_nat (List.length suitableRefs)) with 3%Z.
      rewrite Hk, (at_index_nth _ _ _ Hn). cbn [bind]. now rewrite Hd. }
    assert (at0 : located suitableRefs "abc" 0)
      by (split; [reflexivity | intros j Hj; lia]).
    assert (at1 : located suitableRefs "abcxyz" 1).
    { split; [reflexivity|]. intros [|j] Hj; [discriminate | lia]. }
    assert (at2 : located suitableRefs "abcbar" 2).
    { split; [reflexivity|]. intros [|[|j]] Hj; [discriminate | discriminate | lia]. }
    repeat split.
    + now apply (step true "bar" 2%nat 0%nat "abc" "").
    + now apply (step true "" 0%nat 1%nat "abcxyz" "xyz").
    + now apply (step false "" 0%nat 2%nat "abcbar" "bar").
    + now apply (step false "xyz" 1%nat 0%nat "abc" "").
Qed.

End Cycler.

(** The bound [PTRDIFF_MAX] on both targets. *)
Lemma PTRDIFF_MAX_x86 : @PTRDIFF_MAX x86 = 2147483647%Z.
Proof. reflexivity. Qed.

Lemma PTRDIFF_MAX_x64 : @PTRDIFF_MAX x64 = 9223372036854775807%Z.
Proof. reflexivity. Qed.

Lemma ObtainNextSuggestedSuffix_cycles_witness :
  let suitableRefs := ["abcfoo"; "abcxyz"; "abcbar"] in
  suitableRefs <> [] /\
  (Z.of_nat (List.length suitableRefs) <= @PTRDIFF_MAX x64)%Z /\
  exists (k : nat) (candidate : string),
    @next_index x64 true ("abc" ++ "xyz") suitableRefs = Z.of_nat k /\
    nth_error suitableRefs k = Some candidate /\
    (forall suffix, candidate = "abc" ++ suffix ->
       @ObtainNextSuggestedSuffix x64 true "abc" "xyz" suitableRefs
         = Done suffix).
Proof.
  intros suitableRefs.
  assert (Hne : suitableRefs <> []) by discriminate.
  assert (Hmax : (Z.of_nat (List.length suitableRefs) <= @PTRDIFF_MAX x64)%Z)
    by (rewrite PTRDIFF_MAX_x64; simpl; lia).
  split; [exact Hne | split; [exact Hmax|]].
  destruct (@ObtainNextSuggestedSuffix_cycles x64 true "abc" "xyz"
              suitableRefs Hne Hmax)
    as (k & candidate & Hk & _ & _ & Hn & _ & Hs).
  exists k, candidate. auto.
Defined.

Lemma ObtainNextSuggestedSuffix_prefix_is_candidate_witness :
  @ObtainNextSuggestedSuffix x86 true "abc" "" ["abc"; "abcxyz"; "abcbar"]
    = Done "xyz" /\
  @next_index x64 false ("abc" ++ "") ["abcfoo"; "abc"] = 0%Z.
Proof.
  destruct (@ObtainNextSuggestedSuffix_prefix_is_candidate x86)
    as (_ & _ & Htest).
  destruct (@ObtainNextSuggestedSuffix_prefix_is_candidate x64)
    as (Hfound & _ & _).
  split.
  - apply Htest. rewrite PTRDIFF_MAX_x86. lia.
  - assert (Hloc : located ["abcfoo"; "abc"] "abc" 1).
    { split; [reflexivity|]. intros [|j] Hj; [discriminate | lia]. }
    assert (Hmax : (Z.of_nat (List.length ["abcfoo"; "abc"])
                    <= @PTRDIFF_MAX x64)%Z)
      by (rewrite PTRDIFF_MAX_x64; simpl; lia).
    destruct (Hfound false "abc" ["abcfoo"; "abc"] 1%nat Hmax Hloc)
      as (_ & _ & Hnext).
    rewrite Hnext. reflexivity.
Defined.

(** The oracle of the specification, read on the sorted list, does not hold:
    from the empty suffix the cycler gives "bar" forward, not "foo". *)
Lemma cycler_oracle_sorted_counterexample :
  ~ (let suitableRefs := ["abcbar"; "abcfoo"; "abcxyz"] in
     @ObtainNextSuggestedSuffix x64 true "abc" "xyz" suitableRefs = Done "bar" /\
     @ObtainNextSuggestedSuffix x64 true "abc" "bar" suitableRefs = Done "foo" /\
     @ObtainNextSuggestedSuffix x64 true "abc" "" suitableRefs = Done "foo" /\
     @ObtainNextSuggestedSuffix x64 false "abc" "xyz" suitableRefs = Done "foo" /\
     @ObtainNextSuggestedSuffix x64 false "abc" "foo" suitableRefs = Done "bar" /\
     @ObtainNextSuggestedSuffix x64 false "abc" "" suitableRefs = Done "bar").
Proof.
  intros (_ & _ & H & _). vm_compute in H. discriminate H.
Qed.

(** C3, amended.  The six values of the oracle are those of the cycler on
    the candidates in the order in which [LogicTest] passes them, abcfoo,
    abcxyz, abcbar, which is not sorted.  On the sorted list abcbar, abcfoo,
    abcxyz the two calls with the empty suffix give "bar" forward and "xyz"
    backward, and the other four are as in the oracle. *)
Theorem cycler_oracle_in_test_order :
  let expected := [Done "bar"; Done "foo"; Done "foo";
                   Done "foo"; Done "bar"; Done "bar"] in
  let on_sorted := [Done "bar"; Done "foo"; Done "bar";
                    Done "foo"; Done "bar"; Done "xyz"] in
  cycler_oracle x64 ["abcfoo"; "abcxyz"; "abcbar"] = expected /\
  cycler_oracle x86 ["abcfoo"; "abcxyz"; "abcbar"] = expected /\
  cycler_oracle x64 ["abcbar"; "abcfoo"; "abcxyz"] = on_sorted /\
  cycler_oracle x86 ["abcbar"; "abcfoo"; "abcxyz"] = on_sorted.
Proof.
  repeat split; vm_compute; reflexivity.
Qed.

(** ** The reference classifier *)

Lemma strchr_after_no_slash (R B : string) :
  no_slash R ->
  strchr (R ++ String "/" B) "/" = Some (String "/" B).
Proof.
  induction R as [|a R IH]; intros HR; simpl.
  - reflexivity.
  - destruct (Ascii.eqb_spec a "/") as [->|_].
    + exfalso. now apply (HR 0).
    + apply IH. intros k. apply (HR (S k)).
Qed.

Lemma FilterReferences_remote (options : Options) (rest : string) :
  FilterReferences options (remotePrefix ++ rest) =
  if stripRemoteName options then
    match strchr rest "/" with
    | None => mkClassified [rest] [] AssertionFailed
    | Some slashPtr => mkClassified [rest; ptr_inc slashPtr] [] (Done tt)
    end
  else mkClassified [rest] [] (Done tt).
Proof.
  unfold FilterReferences, prefixes, first_prefix.
  change (StartsWith (remotePrefix ++ rest) "refs/heads/") with false.
  change (StartsWith (remotePrefix ++ rest) "refs/tags/") with false.
  cbv iota. now rewrite StartsWith_append, ptr_add_append.
Qed.

Lemma FilterReferences_other (options : Options) (ref : string) :
  ~ is_prefix "refs/heads/" ref ->
  ~ is_prefix "refs/tags/" ref ->
  ~ is_prefix "refs/remotes/" ref ->
  FilterReferences options ref =
  mkClassified [] ["Ignored ref = " ++ ref] (Done tt).
Proof.
  intros Hh Ht Hr. rewrite <- StartsWith_iff in Hh, Ht, Hr.
  apply not_true_is_false in Hh, Ht, Hr.
  unfold FilterReferences, prefixes, remotePrefix, first_prefix.
  now rewrite Hh, Ht, Hr.
Qed.

(** How a call of [FilterReferences] ends. *)
Lemma FilterReferences_ending (options : Options) (ref : string) :
  ending (FilterReferences options ref) = Done tt \/
  ending (FilterReferences options ref) = AssertionFailed /\
  stripRemoteName options = true /\
  exists rest, ref = remotePrefix ++ rest /\ no_slash rest.
Proof.
  unfold FilterReferences.
  destruct (first_prefix prefixes ref); [now left|].
  destruct (StartsWith ref remotePrefix) eqn:Hs; [|now left].
  apply StartsWith_iff in Hs. destruct Hs as [rest ->].
  rewrite ptr_add_append.
  destruct (stripRemoteName options); [|now left].
  destruct (strchr rest "/") eqn:Hc; [now left|].
  right. repeat split; trivial. exists rest. split; trivial.
  exact (proj1 (strchr_none rest "/") Hc).
Qed.

Lemma FilterReferences_well_formed (options : Options) (ref : string) :
  well_formed_remote ref -> ending (FilterReferences options ref) = Done tt.
Proof.
  intros Hwf.
  destruct (FilterReferences_ending options ref)
    as [E|(_ & _ & rest & -> & Hno)]; trivial.
  destruct (Hwf rest eq_refl) as [k Hk]. now elim (Hno k).
Qed.

Lemma ObtainSuitableRefsBy_well_formed (options : Options)
    (repo : git_repository) (suitableRefs : list string)
    (isSuitableRef : string -> bool) :
  (forall ref, In ref repo -> well_formed_remote ref) ->
  exists refs,
    ObtainSuitableRefsBy options repo suitableRefs isSuitableRef = Done refs.
Proof.
  revert suitableRefs; induction repo as [|ref repo IH]; intros acc Hwf; simpl.
  - now exists acc.
  - rewrite (FilterReferences_well_formed options ref) by (apply Hwf; now left).
    simpl. apply IH. intros r Hr. apply Hwf. now right.
Qed.

Lemma ObtainSuitableRefsBy_abort (options : Options)
    (before after : git_repository) (ref : string)
    (suitableRefs : list string) (isSuitableRef : string -> bool) :
  (forall r, In r before -> well_formed_remote r) ->
  ending (FilterReferences options ref) = AssertionFailed ->
  ObtainSuitableRefsBy options (before ++ ref :: after)%list suitableRefs
    isSuitableRef = AssertionFailed.
Proof.
  revert suitableRefs; induction before as [|r before IH]; intros acc Hwf Hbad;
    simpl.
  - now rewrite Hbad.
  - rewrite (FilterReferences_well_formed options r) by (apply Hwf; now left).
    simpl. apply IH; trivial. intros r' Hr'. apply Hwf. now right.
Qed.

(** C5.  Whatever the options, [refs/heads/X] and [refs/tags/X] give exactly
    the short name [X]; [refs/remotes/R/B], where [R] is the remote name up
    to the first ['/'], gives exactly [R/B] when [stripRemoteName] is off
    and exactly [R/B] then [B] when it is on; a reference under none of the
    three prefixes gives no short name and one line of the log. *)
Theorem FilterReferences_classifies (options : Options) :
  (forall X,
      FilterReferences options ("refs/heads/" ++ X)
      = mkClassified [X] [] (Done tt)) /\
  (forall X,
      FilterReferences options ("refs/tags/" ++ X)
      = mkClassified [X] [] (Done tt)) /\
  (forall R B,
      stripRemoteName options = false ->
      FilterReferences options ("refs/remotes/" ++ R ++ "/" ++ B)
      = mkClassified [R ++ "/" ++ B] [] (Done tt)) /\
  (forall R B,
      stripRemoteName options = true ->
      no_slash R ->
      FilterReferences options ("refs/remotes/" ++ R ++ "/" ++ B)
      = mkClassified [R ++ "/" ++ B; B] [] (Done tt)) /\
  (forall ref,
      ~ is_prefix "refs/heads/" ref ->
      ~ is_prefix "refs/tags/" ref ->
      ~ is_prefix "refs/remotes/" ref ->
      FilterReferences options ref
      = mkClassified [] ["Ignored ref = " ++ ref] (Done tt)).
Proof.
  repeat split.
  - intros X. unfold FilterReferences, prefixes, first_prefix.
    now rewrite StartsWith_append, ptr_add_append.
  - intros X. unfold FilterReferences, prefixes, first_prefix.
    change (StartsWith ("refs/tags/" ++ X) "refs/heads/") with false.
    cbv iota. now rewrite StartsWith_append, ptr_add_append.
  - intros R B Hoff.
    change (FilterReferences options (remotePrefix ++ (R ++ "/" ++ B))
            = mkClassified [R ++ "/" ++ B] [] (Done tt)).
    now rewrite FilterReferences_remote, Hoff.
  - intros R B Hon HR.
    change (FilterReferences options (remotePrefix ++ (R ++ "/" ++ B))
            = mkClassified [R ++ "/" ++ B; B] [] (Done tt)).
    rewrite FilterReferences_remote, Hon.
    change (R ++ "/" ++ B) with (R ++ String "/" B).
    now rewrite strchr_after_no_slash.
  - apply FilterReferences_other.
Qed.

Lemma FilterReferences_classifies_witness :
  FilterReferences (mkOptions true true false) "refs/remotes/origin/feature/x"
  = mkClassified ["origin/feature/x"; "feature/x"] [] (Done tt) /\
  FilterReferences (mkOptions false true false) "refs/remotes/origin/master"
  = mkClassified ["origin/master"] [] (Done tt) /\
  FilterReferences (mkOptions true true false) "refs/stash"
  = mkClassified [] ["Ignored ref = refs/stash"] (Done tt).
Proof.
  destruct (FilterReferences_classifies (mkOptions true true false))
    as (_ & _ & _ & Hon & Hother).
  destruct (FilterReferences_classifies (mkOptions false true false))
    as (_ & _ & Hoff & _).
  split; [|split].
  - apply (Hon "origin" "feature/x"); [reflexivity|].
    intros [|[|[|[|[|[|[|k]]]]]]]; discriminate.
  - apply (Hoff "origin" "master"). reflexivity.
  - apply Hother; intros [rest E]; discriminate E.
Defined.

(** C6.  With [stripRemoteName] on, a reference under [refs/remotes/] with
    no ['/'] after that prefix makes the assertion fail: the call does not
    return, and neither does the enumeration that reaches it.  When every
    reference under [refs/remotes/] has a ['/'] after the prefix, the
    assertion never fails: every classification and every enumeration
    returns. *)
Theorem FilterReferences_assertion :
  (forall options rest,
      stripRemoteName options = true ->
      no_slash rest ->
      FilterReferences options (remotePrefix ++ rest)
      = mkClassified [rest] [] AssertionFailed /\
      forall before after suitableRefs isSuitableRef,
        (forall r, In r before -> well_formed_remote r) ->
        ObtainSuitableRefsBy options
          (before ++ (remotePrefix ++ rest)%string :: after)%list
          suitableRefs isSuitableRef = AssertionFailed) /\
  (forall options ref,
      well_formed_remote ref ->
      ending (FilterReferences options ref) = Done tt) /\
  (forall options repo suitableRefs isSuitableRef,
      (forall ref, In ref repo -> well_formed_remote ref) ->
      exists refs,
        ObtainSuitableRefsBy options repo suitableRefs isSuitableRef
        = Done refs).
Proof.
  split; [|split].
  - intros options rest Hon Hno.
    assert (E : FilterReferences options (remotePrefix ++ rest)
                = mkClassified [rest] [] AssertionFailed).
    { rewrite FilterReferences_remote, Hon.
      now rewrite (proj2 (strchr_none rest "/") Hno). }
    split; [exact E|].
    intros before after suitableRefs isSuitableRef Hwf.
    apply ObtainSuitableRefsBy_abort; trivial. now rewrite E.
  - exact FilterReferences_well_formed.
  - exact ObtainSuitableRefsBy_well_formed.
Qed.

Lemma FilterReferences_assertion_witness :
  FilterReferences (mkOptions true true false) "refs/remotes/origin"
  = mkClassified ["origin"] [] AssertionFailed /\
  ObtainSuitableRefsBy (mkOptions true true false)
    ["refs/heads/master"; "refs/remotes/origin"; "refs/tags/v1"] []
    (fun _ => true) = AssertionFailed /\
  exists refs,
    ObtainSuitableRefsBy (mkOptions true true false)
      ["refs/heads/master"; "refs/remotes/origin/master"] []
      (fun _ => true) = Done refs.
Proof.
  destruct FilterReferences_assertion as (Hbad & _ & Hgood).
  assert (Hno : no_slash "origin")
    by (intros [|[|[|[|[|[|[|k]]]]]]]; discriminate).
  assert (Hmaster : well_formed_remote "refs/heads/master")
    by (intros rest E; discriminate E).
  destruct (Hbad (mkOptions true true false) "origin" eq_refl Hno)
    as [Hone Hall].
  split; [exact Hone | split].
  - apply (Hall ["refs/heads/master"] ["refs/tags/v1"]).
    intros r [<-|[]]. exact Hmaster.
  - apply Hgood. intros ref [<-|[<-|[]]]; [exact Hmaster|].
    intros rest [= <-]. now exists 6.
Defined.

(** ** Prefixes *)

Lemma length_append (s t : string) :
  String.length (s ++ t) = String.length s + String.length t.
Proof. induction s as [|a s IH]; simpl; [reflexivity | now rewrite IH]. Qed.

Lemma is_prefix_empty_l (s : string) : is_prefix "" s.
Proof. now exists s. Qed.

Lemma is_prefix_refl (s : string) : is_prefix s s.
Proof. exists "". now rewrite append_empty_r. Qed.

Lemma is_prefix_cons (a b : ascii) (p s : string) :
  is_prefix (String a p) (String b s) <-> a = b /\ is_prefix p s.
Proof.
  split.
  - intros [rest [= -> ->]]. split; [reflexivity | now exists rest].
  - intros [-> [rest ->]]. now exists rest.
Qed.

Lemma is_prefix_empty_r (p : string) : is_prefix p "" -> p = "".
Proof. intros [rest E]. destruct p; [reflexivity | discriminate E]. Qed.

Lemma is_prefix_trans (p q s : string) :
  is_prefix p q -> is_prefix q s -> is_prefix p s.
Proof.
  intros [r1 ->] [r2 ->]. exists (r1 ++ r2). apply append_assoc.
Qed.

Lemma is_prefix_length (p s : string) :
  is_prefix p s -> String.length p <= String.length s.
Proof. intros [rest ->]. rewrite length_append. lia. Qed.

Lemma is_prefix_antisym (p s : string) :
  is_prefix p s -> is_prefix s p -> p = s.
Proof.
  intros [rest ->] H. apply is_prefix_length in H.
  rewrite length_append in H.
  destruct rest; [now rewrite append_empty_r | simpl in H; lia].
Qed.

Lemma lcp2_empty_r (a : string) : lcp2 a "" = "".
Proof. now destruct a. Qed.

Lemma lcp2_prefix_l (a b : string) : is_prefix (lcp2 a b) a.
Proof.
  revert b; induction a as [|x a IH]; intros [|y b]; simpl;
    try apply is_prefix_empty_l.
  destruct (Ascii.eqb x y); [|apply is_prefix_empty_l].
  apply is_prefix_cons. split; [reflexivity | apply IH].
Qed.

Lemma lcp2_prefix_r (a b : string) : is_prefix (lcp2 a b) b.
Proof.
  revert b; induction a as [|x a IH]; intros [|y b]; simpl;
    try apply is_prefix_empty_l.
  destruct (Ascii.eqb_spec x y) as [->|_]; [|apply is_prefix_empty_l].
  apply is_prefix_cons. split; [reflexivity | apply IH].
Qed.

Lemma lcp2_greatest (q a b : string) :
  is_prefix q a -> is_prefix q b -> is_prefix q (lcp2 a b).
Proof.
  revert a b; induction q as [|z q IH]; intros a b Ha Hb;
    [apply is_prefix_empty_l|].
  destruct a as [|x a]; [apply is_prefix_empty_r in Ha; discriminate|].
  destruct b as [|y b]; [apply is_prefix_empty_r in Hb; discriminate|].
  apply is_prefix_cons in Ha, Hb. destruct Ha as [-> Ha], Hb as [<- Hb].
  simpl. rewrite Ascii.eqb_refl. apply is_prefix_cons.
  split; [reflexivity | now apply IH].
Qed.

(** Folding [insert_lcp] computes the greatest common prefix. *)
Lemma insert_lcp_fold (l : list string) (p0 : string) :
  exists p,
    fold_left insert_lcp l (Some p0) = Some p /\
    is_prefix p p0 /\
    common_prefix p l /\
    forall q, is_prefix q p0 -> common_prefix q l -> is_prefix q p.
Proof.
  revert p0; induction l as [|s l IH]; intros p0; simpl.
  - exists p0. repeat split; trivial.
    + apply is_prefix_refl.
    + intros s [].
  - destruct (IH (lcp2 s p0)) as (p & E & Hp0 & Hl & Hmax).
    exists p. split; [exact E|]. split; [|split].
    + eapply is_prefix_trans; [exact Hp0 | apply lcp2_prefix_r].
    + intros s' [<-|Hs'].
      * eapply is_prefix_trans; [exact Hp0 | apply lcp2_prefix_l].
      * now apply Hl.
    + intros q Hq0 Hq. apply Hmax.
      * apply lcp2_greatest; trivial. apply Hq. now left.
      * intros s' Hs'. apply Hq. now right.
Qed.

(** ** The trie *)

Lemma no_empty_child_node (terminal : bool) (children : list (ascii * Trie)) :
  no_empty_child (TrieNode terminal children) <-> Forall child_ok children.
Proof.
  simpl. induction children as [|[d t] cs IH].
  - split; [constructor | trivial].
  - split.
    + intros [Ht Hcs]. constructor; [exact Ht | now apply IH].
    + intros H. inversion H as [|x xs Ht Hcs]; subst.
      split; [exact Ht | now apply IH].
Qed.

Lemma update_child_cons (c : ascii) (descend : Trie -> Trie)
    (children : list (ascii * Trie)) :
  exists ct cs, update_child c descend children = ct :: cs.
Proof.
  destruct children as [|[d t] cs]; simpl; [now eexists; eexists|].
  destruct (Ascii.eqb d c); now eexists; eexists.
Qed.

Lemma update_child_cons2 (c : ascii) (descend : Trie -> Trie)
    (x y : ascii * Trie) (children : list (ascii * Trie)) :
  exists x' y' cs, update_child c descend (x :: y :: children) = x' :: y' :: cs.
Proof.
  destruct x as [d t].
  change (update_child c descend ((d, t) :: y :: children))
    with (if Ascii.eqb d c then (d, descend t) :: y :: children
          else (d, t) :: update_child c descend (y :: children)).
  destruct (Ascii.eqb d c); [now repeat eexists|].
  destruct (update_child_cons c descend (y :: children)) as (ct & cs & ->).
  now repeat eexists.
Qed.

Lemma Forall_update_child (c : ascii) (descend : Trie -> Trie)
    (children : list (ascii * Trie)) :
  (forall t, no_empty_child t -> child_ok (c, descend t)) ->
  Forall child_ok children ->
  Forall child_ok (update_child c descend children).
Proof.
  intros Hd. induction children as [|[d t] cs IH]; intros H; simpl.
  - constructor; [|constructor]. apply Hd. simpl. trivial.
  - inversion H as [|x xs Ht Hcs]; subst.
    destruct (Ascii.eqb d c).
    + constructor; [|exact Hcs]. apply (Hd t), Ht.
    + constructor; [exact Ht | now apply IH].
Qed.

Lemma trie_add_not_empty (t : Trie) (s : string) :
  is_empty_trie (trie_add t s) = false.
Proof.
  destruct t as [e cs], s as [|c s]; simpl; [reflexivity|].
  destruct (update_child_cons c (fun t => trie_add t s) cs) as (ct & cs' & ->).
  now destruct e.
Qed.

Lemma trie_add_no_empty_child (s : string) :
  forall t, no_empty_child t -> no_empty_child (trie_add t s).
Proof.
  induction s as [|c s IH]; intros [e cs] Ht.
  - exact Ht.
  - apply no_empty_child_node in Ht.
    change (no_empty_child
              (TrieNode e (update_child c (fun t => trie_add t s) cs))).
    apply no_empty_child_node, Forall_update_child; trivial.
    intros t Hgood. split; [apply trie_add_not_empty | now apply IH].
Qed.

Lemma common_prefix_two_children (x y : ascii * Trie)
    (children : list (ascii * Trie)) :
  trie_get_common_prefix (TrieNode false (x :: y :: children)) = "".
Proof. now destruct x. Qed.

Lemma trie_add_common_prefix (s : string) :
  forall t, no_empty_child t ->
    trie_get_common_prefix (trie_add t s) =
    match trie_abstraction t with
    | None => s
    | Some p => lcp2 s p
    end.
Proof.
  induction s as [|c s IH]; intros [e cs] Ht.
  - simpl. now destruct (trie_abstraction (TrieNode e cs)).
  - apply no_empty_child_node in Ht.
    change (trie_add (TrieNode e cs) (String c s))
      with (TrieNode e (update_child c (fun t => trie_add t s) cs)).
    destruct e; [reflexivity|].
    destruct cs as [|[d t'] cs].
    + simpl. now rewrite (IH trie_create I).
    + inversion Ht as [|x xs [Hne Hgood] Hcs]; subst. simpl in Hne, Hgood.
      destruct cs as [|y cs].
      * unfold trie_abstraction. simpl update_child.
        simpl is_empty_trie. cbv iota.
        simpl. rewrite (Ascii.eqb_sym c d).
        destruct (Ascii.eqb_spec d c) as [->|_]; [|reflexivity].
        rewrite (IH t' Hgood). unfold trie_abstraction. now rewrite Hne.
      * destruct (update_child_cons2 c (fun t => trie_add t s) (d, t') y cs)
          as (x' & y' & cs' & ->).
        unfold trie_abstraction. simpl is_empty_trie. cbv iota.
        now rewrite !common_prefix_two_children, lcp2_empty_r.
Qed.

Lemma trie_add_abstraction (t : Trie) (s : string) :
  no_empty_child t ->
  trie_abstraction (trie_add t s) = insert_lcp (trie_abstraction t) s.
Proof.
  intros Ht. unfold trie_abstraction at 1.
  rewrite trie_add_not_empty, trie_add_common_prefix by trivial.
  now destruct (trie_abstraction t).
Qed.

Lemma fold_trie_add (l : list string) :
  forall t, no_empty_child t ->
    no_empty_child (fold_left trie_add l t) /\
    trie_abstraction (fold_left trie_add l t)
    = fold_left insert_lcp l (trie_abstraction t).
Proof.
  induction l as [|s l IH]; intros t Ht; simpl.
  - now split.
  - rewrite <- trie_add_abstraction by trivial.
    apply IH. now apply trie_add_no_empty_child.
Qed.

Lemma FindCommonPrefix_nil : FindCommonPrefix [] = "".
Proof. reflexivity. Qed.

Lemma FindCommonPrefix_cons (s : string) (l : list string) :
  fold_left insert_lcp l (Some s) = Some (FindCommonPrefix (s :: l)).
Proof.
  destruct (fold_trie_add (s :: l) trie_create I) as [_ E].
  destruct (insert_lcp_fold l s) as (p & Ep & _).
  change (fold_left insert_lcp (s :: l) (trie_abstraction trie_create))
    with (fold_left insert_lcp l (Some s)) in E.
  rewrite Ep in E |- *. unfold trie_abstraction in E.
  unfold FindCommonPrefix.
  destruct (is_empty_trie (fold_left trie_add (s :: l) trie_create));
    congruence.
Qed.

(** The common prefix of a non-empty list is its greatest common prefix. *)
Lemma FindCommonPrefix_greatest (l : list string) :
  common_prefix (FindCommonPrefix l) l /\
  (l <> [] -> forall q, common_prefix q l -> is_prefix q (FindCommonPrefix l)).
Proof.
  destruct l as [|s l].
  - split; [intros s [] | congruence].
  - destruct (insert_lcp_fold l s) as (p & Ep & Hs & Hl & Hmax).
    rewrite FindCommonPrefix_cons in Ep. injection Ep as ->.
    split.
    + intros s' [<-|Hs']; [exact Hs | now apply Hl].
    + intros _ q Hq. apply Hmax.
      * apply Hq. now left.
      * intros s' Hs'. apply Hq. now right.
Qed.

Lemma FindCommonPrefix_same_elements (l l' : list string) :
  (forall s, In s l <-> In s l') ->
  FindCommonPrefix l' = FindCommonPrefix l.
Proof.
  intros Hsame.
  destruct l as [|s l], l' as [|s' l'].
  - reflexivity.
  - exfalso. apply (proj2 (Hsame s')). now left.
  - exfalso. apply (proj1 (Hsame s)). now left.
  - destruct (FindCommonPrefix_greatest (s :: l)) as [H1 M1].
    destruct (FindCommonPrefix_greatest (s' :: l')) as [H2 M2].
    apply is_prefix_antisym.
    + apply M1; [discriminate|]. intros x Hx. apply H2, Hsame, Hx.
    + apply M2; [discriminate|]. intros x Hx. apply H1, Hsame, Hx.
Qed.

(** C4.  For every finite sequence of strings inserted into a trie,
    [trie_get_common_prefix] is the longest string that is a prefix of every
    inserted string: it is a prefix of each of them, and, when there is one
    at least, every string that is a prefix of each of them is a prefix of
    the result, so none is longer; for a single string it is that string, for
    no string it is the empty string; it is the same for two sequences with
    the same members, so it does not depend on the order of the insertions,
    and inserting a string again does not change it. *)
Theorem trie_get_common_prefix_longest (strs : list string) :
  let result := trie_get_common_prefix (fold_left trie_add strs trie_create) in
  result = FindCommonPrefix strs /\
  common_prefix result strs /\
  (strs <> [] ->
   forall q, common_prefix q strs ->
     is_prefix q result /\ String.length q <= String.length result) /\
  (forall s, strs = [s] -> result = s) /\
  (strs = [] -> result = "") /\
  (forall strs',
      (forall s, In s strs <-> In s strs') ->
      trie_get_common_prefix (fold_left trie_add strs' trie_create) = result) /\
  (forall strs',
      Permutation strs strs' ->
      trie_get_common_prefix (fold_left trie_add strs' trie_create) = result) /\
  (forall s,
      In s strs ->
      trie_get_common_prefix
        (trie_add (fold_left trie_add strs trie_create) s) = result).
Proof.
  intros result. change result with (FindCommonPrefix strs).
  destruct (FindCommonPrefix_greatest strs) as [Hcommon Hmax].
  split; [reflexivity|]. split; [exact Hcommon|].
  split; [|split; [|split; [|split; [|split]]]].
  - intros Hne q Hq. pose proof (Hmax Hne q Hq) as H.
    split; [exact H | now apply is_prefix_length].
  - intros s ->. pose proof (FindCommonPrefix_cons s []) as E.
    simpl in E. now injection E.
  - intros ->. reflexivity.
  - intros strs'. apply FindCommonPrefix_same_elements.
  - intros strs' Hp. apply FindCommonPrefix_same_elements.
    intros s. split; apply Permutation_in; [exact Hp | now apply Permutation_sym].
  - intros s Hs.
    change (trie_add (fold_left trie_add strs trie_create) s)
      with (fold_left trie_add [s] (fold_left trie_add strs trie_create)).
    rewrite <- fold_left_app.
    apply (FindCommonPrefix_same_elements strs (strs ++ [s])%list).
    intros x. rewrite in_app_iff. simpl. intuition congruence.
Qed.

Lemma trie_get_common_prefix_longest_witness :
  trie_get_common_prefix
    (fold_left trie_add ["master"; "main"; "macro"; "main"] trie_create) = "ma" /\
  String.length "m" <= String.length "ma" /\
  trie_get_common_prefix
    (fold_left trie_add ["macro"; "master"; "main"] trie_create) = "ma".
Proof.
  destruct (trie_get_common_prefix_longest ["master"; "main"; "macro"; "main"])
    as (_ & _ & Hmax & _ & _ & Horder & _).
  split; [reflexivity|]. split.
  - apply (Hmax ltac:(discriminate) "m").
    intros s [<-|[<-|[<-|[<-|[]]]]]; eexists; reflexivity.
  - rewrite (Horder ["macro"; "master"; "main"]); [reflexivity|].
    intros s; simpl; tauto.
Defined.

(** ** Sorting and removing duplicates *)

Lemma In_sort_insert (x a : string) (l : list string) :
  In x (sort_insert a l) <-> x = a \/ In x l.
Proof.
  induction l as [|b l IH]; simpl.
  - intuition congruence.
  - destruct (String.ltb a b); simpl; rewrite ?IH; intuition congruence.
Qed.

Lemma In_sort (x : string) (l : list string) : In x (sort l) <-> In x l.
Proof.
  induction l as [|a l IH]; simpl; [tauto|].
  rewrite In_sort_insert, IH. intuition congruence.
Qed.

Lemma length_sort_insert (a : string) (l : list string) :
  List.length (sort_insert a l) = S (List.length l).
Proof.
  induction l as [|b l IH]; simpl; trivial.
  destruct (String.ltb a b); simpl; now rewrite ?IH.
Qed.

Lemma length_sort (l : list string) : List.length (sort l) = List.length l.
Proof.
  induction l as [|a l IH]; simpl; trivial.
  now rewrite length_sort_insert, IH.
Qed.

Lemma unique_cons2 (a b : string) (l : list string) :
  unique (a :: b :: l) =
  if String.eqb a b then unique (b :: l) else a :: unique (b :: l).
Proof. reflexivity. Qed.

Lemma In_unique (x : string) (l : list string) : In x (unique l) <-> In x l.
Proof.
  induction l as [|a l IH]; [tauto|].
  destruct l as [|b l]; [tauto|].
  rewrite unique_cons2.
  destruct (String.eqb_spec a b) as [->|_].
  - rewrite IH. simpl. tauto.
  - simpl In at 1. rewrite IH. simpl. intuition congruence.
Qed.

Lemma length_unique (l : list string) :
  List.length (unique l) <= List.length l.
Proof.
  induction l as [|a l IH]; [simpl; lia|].
  destruct l as [|b l]; [simpl; lia|].
  rewrite unique_cons2.
  destruct (String.eqb a b); simpl List.length in *; lia.
Qed.

Lemma In_unique_sort (x : string) (l : list string) :
  In x (unique (sort l)) <-> In x l.
Proof. now rewrite In_unique, In_sort. Qed.

Lemma unique_sort_not_nil (l : list string) :
  l <> [] -> unique (sort l) <> [].
Proof.
  destruct l as [|a l]; [congruence|]. intros _ E.
  assert (H : In a (unique (sort (a :: l)))) by (apply In_unique_sort; now left).
  now rewrite E in H.
Qed.

Lemma FindCommonPrefix_unique_sort (l : list string) :
  FindCommonPrefix (unique (sort l)) = FindCommonPrefix l.
Proof.
  apply FindCommonPrefix_same_elements. intros s. symmetry.
  apply In_unique_sort.
Qed.

(** ** The candidate selectors *)

Lemma ObtainSuitableRefsBy_done (options : Options) (repo : git_repository) :
  forall suitableRefs isSuitableRef refs,
    ObtainSuitableRefsBy options repo suitableRefs isSuitableRef = Done refs ->
    forall suitableRefs' isSuitableRef',
      ObtainSuitableRefsBy options repo suitableRefs' isSuitableRef'
      = Done (suitableRefs'
              ++ filter isSuitableRef' (short_names options repo))%list.
Proof.
  induction repo as [|ref repo IH]; intros acc f refs H acc' f'; simpl in *.
  - now rewrite app_nil_r.
  - destruct (ending (FilterReferences options ref)) as [[]| |];
      try discriminate H. simpl in *.
    rewrite (IH _ _ _ H). now rewrite filter_app, app_assoc.
Qed.

Lemma length_emitted (options : Options) (ref : string) :
  List.length (emitted (FilterReferences options ref)) <= 2.
Proof.
  unfold FilterReferences.
  destruct (first_prefix prefixes ref); simpl; [lia|].
  destruct (StartsWith ref remotePrefix); simpl; [|lia].
  destruct (stripRemoteName options); simpl; [|lia].
  destruct (strchr _ _); simpl; lia.
Qed.

Lemma length_short_names (options : Options) (repo : git_repository) :
  List.length (short_names options repo) <= 2 * List.length repo.
Proof.
  induction repo as [|ref repo IH]; simpl; [lia|].
  rewrite length_app. pose proof (length_emitted options ref). lia.
Qed.

Lemma length_filter_le (f : string -> bool) (l : list string) :
  List.length (filter f l) <= List.length l.
Proof.
  induction l as [|a l IH]; simpl; [lia|]. destruct (f a); simpl; lia.
Qed.

(** The candidates of an invocation that returns: the short names that start
    with the typed prefix, and, when there is none, those that the typed
    prefix may encode. *)
Lemma SelectSuitableRefs_done (options : Options) (repo : git_repository)
    (currentPrefix : string) (refs : list string) :
  SelectSuitableRefs options repo currentPrefix = Done refs ->
  let names := short_names options repo in
  let strict := filter (fun n => StartsWith n currentPrefix) names in
  let partial :=
    filter (fun n => RefMayBeEncodedByPartialPrefix n currentPrefix) names in
  ObtainSuitableRefsByStrictPrefix options repo currentPrefix [] = Done strict /\
  refs = match strict with [] => partial | _ :: _ => strict end.
Proof.
  intros H. cbv zeta.
  unfold SelectSuitableRefs, ObtainSuitableRefsByStrictPrefix,
    ObtainSuitableRefsByPartialPrefixes in *.
  destruct (ObtainSuitableRefsBy options repo []
              (fun refName => StartsWith refName currentPrefix))
    as [found| |] eqn:E; try discriminate H.
  pose proof (ObtainSuitableRefsBy_done _ _ _ _ _ E []
                (fun refName => StartsWith refName currentPrefix)) as E1.
  rewrite E in E1. injection E1 as ->. simpl app in *.
  split; [reflexivity|].
  cbn [bind] in H.
  destruct (filter (fun n => StartsWith n currentPrefix)
              (short_names options repo)) as [|x xs].
  - rewrite (ObtainSuitableRefsBy_done _ _ _ _ _ E) in H.
    now injection H.
  - now injection H.
Qed.

Lemma SelectSuitableRefs_again (options : Options) (repo : git_repository)
    (currentPrefix currentPrefix' : string) (refs : list string) :
  SelectSuitableRefs options repo currentPrefix = Done refs ->
  let names := short_names options repo in
  let strict := filter (fun n => StartsWith n currentPrefix') names in
  let partial :=
    filter (fun n => RefMayBeEncodedByPartialPrefix n currentPrefix') names in
  SelectSuitableRefs options repo currentPrefix'
  = Done match strict with [] => partial | _ :: _ => strict end.
Proof.
  intros H. cbv zeta.
  apply SelectSuitableRefs_done in H. destruct H as [E _].
  unfold SelectSuitableRefs, ObtainSuitableRefsByStrictPrefix,
    ObtainSuitableRefsByPartialPrefixes in *.
  rewrite (ObtainSuitableRefsBy_done _ _ _ _ _ E). simpl app.
  cbn [bind].
  destruct (filter (fun n => StartsWith n currentPrefix')
              (short_names options repo)); [|reflexivity].
  now rewrite (ObtainSuitableRefsBy_done _ _ _ _ _ E).
Qed.

(** ** The orchestrator *)

Lemma SplitHost_lawful : HostLaws SplitHost.
Proof. split; reflexivity. Qed.

Section OrchestratorProofs.
Context {target : Target} {host : Host}.

Lemma TransformCmdLine_selected
    (ShowRefsDialog : list string -> string -> string) (options : Options)
    (cmdLine : CmdLine) (repo : git_repository) (refs : list string) :
  let currentPrefix := w2mb (GetUserPrefix cmdLine) in
  SelectSuitableRefs options repo currentPrefix = Done refs ->
  refs <> [] ->
  TransformCmdLine ShowRefsDialog options cmdLine repo =
  let suitableRefs := unique (sort refs) in
  let newPrefix := FindCommonPrefix suitableRefs in
  if negb (String.eqb newPrefix currentPrefix) then
    Done (ReplaceUserPrefix cmdLine (mb2w newPrefix))
  else
    let currentSuffix := w2mb (GetSuggestedSuffix cmdLine) in
    if showDialog options then
      let selectedRef :=
        ShowRefsDialog suitableRefs (currentPrefix ++ currentSuffix) in
      if negb (String.eqb selectedRef "") then
        Done (ReplaceUserPrefix (ReplaceSuggestedSuffix cmdLine wempty)
                (mb2w selectedRef))
      else Done cmdLine
    else
      newSuffix <- ObtainNextSuggestedSuffix (suggestNextSuffix options)
                     currentPrefix currentSuffix suitableRefs ;;
      Done (ReplaceSuggestedSuffix cmdLine (mb2w newSuffix)).
Proof.
  intros currentPrefix Hsel Hne. unfold TransformCmdLine.
  fold currentPrefix. rewrite Hsel. cbn [bind].
  destruct refs; [congruence | reflexivity].
Qed.

Lemma TransformCmdLine_nothing_selected
    (ShowRefsDialog : list string -> string -> string) (options : Options)
    (cmdLine : CmdLine) (repo : git_repository) :
  SelectSuitableRefs options repo (w2mb (GetUserPrefix cmdLine)) = Done [] ->
  TransformCmdLine ShowRefsDialog options cmdLine repo = Done cmdLine.
Proof. intros Hsel. unfold TransformCmdLine. now rewrite Hsel. Qed.

(** The candidates of the strict selection start with the typed prefix. *)
Lemma strict_candidates_start (names : list string) (currentPrefix : string) :
  common_prefix currentPrefix
    (filter (fun n => StartsWith n currentPrefix) names).
Proof.
  intros s Hs. apply filter_In in Hs. now apply StartsWith_iff.
Qed.

(** The strict selection on the common prefix of a selection finds that
    selection again, and has the same common prefix. *)
Lemma strict_selection_on_common_prefix (names refs : list string) :
  refs <> [] ->
  incl refs names ->
  let newPrefix := FindCommonPrefix refs in
  let strict := filter (fun n => StartsWith n newPrefix) names in
  incl refs strict /\ strict <> [] /\ FindCommonPrefix strict = newPrefix.
Proof.
  intros Hne Hincl newPrefix strict.
  destruct (FindCommonPrefix_greatest refs) as [Hc Hmax].
  assert (Hin : incl refs strict).
  { intros x Hx. apply filter_In. split; [now apply Hincl|].
    apply StartsWith_iff. now apply Hc. }
  assert (Hne' : strict <> []).
  { destruct refs as [|x refs]; [congruence|]. intros E.
    specialize (Hin x (or_introl eq_refl)). now rewrite E in Hin. }
  split; [exact Hin | split; [exact Hne'|]].
  destruct (FindCommonPrefix_greatest strict) as [Hc' Hmax'].
  apply is_prefix_antisym.
  - apply Hmax; trivial. intros x Hx. apply Hc', Hin, Hx.
  - apply Hmax'; trivial. apply strict_candidates_start.
Qed.

(** When the strict selection is empty, the common prefix of the partial
    selection is not the typed prefix: the fallback always commits. *)
Lemma partial_selection_commits (names : list string) (currentPrefix : string) :
  let strict := filter (fun n => StartsWith n currentPrefix) names in
  let partial :=
    filter (fun n => RefMayBeEncodedByPartialPrefix n currentPrefix) names in
  strict = [] -> partial <> [] -> FindCommonPrefix partial <> currentPrefix.
Proof.
  intros strict partial Hs Hp E.
  destruct partial as [|x xs] eqn:Ep; [congruence|].
  destruct (FindCommonPrefix_greatest (x :: xs)) as [Hc _].
  assert (Hx : In x strict).
  { apply filter_In. split.
    - assert (H : In x partial) by (rewrite Ep; now left).
      now apply filter_In in H.
    - apply StartsWith_iff. rewrite <- E. apply Hc. now left. }
  now rewrite Hs in Hx.
Qed.

(** The cycler returns when every candidate starts with the prefix. *)
Lemma cycler_returns (forwardSearch : bool)
    (currentPrefix currentSuffix : string) (suitableRefs : list string) :
  suitableRefs <> [] ->
  (Z.of_nat (List.length suitableRefs) <= PTRDIFF_MAX)%Z ->
  common_prefix currentPrefix suitableRefs ->
  exists newSuffix,
    ObtainNextSuggestedSuffix forwardSearch currentPrefix currentSuffix
      suitableRefs = Done newSuffix /\
    In (currentPrefix ++ newSuffix) suitableRefs.
Proof.
  intros Hne Hmax Hc.
  destruct (cycler_selects forwardSearch currentPrefix currentSuffix
              suitableRefs Hne Hmax) as (k & candidate & _ & Hn & Hres).
  apply nth_error_In in Hn. destruct (Hc _ Hn) as [rest ->].
  exists rest. rewrite Hres, DropPrefix_append. now split.
Qed.

Lemma length_candidates (options : Options) (repo : git_repository)
    (f : string -> bool) :
  (2 * Z.of_nat (List.length repo) <= PTRDIFF_MAX)%Z ->
  (Z.of_nat (List.length (unique (sort (filter f (short_names options repo)))))
   <= PTRDIFF_MAX)%Z.
Proof.
  intros Hmax.
  pose proof (length_unique (sort (filter f (short_names options repo)))).
  rewrite length_sort in H.
  pose proof (length_filter_le f (short_names options repo)).
  pose proof (length_short_names options repo). lia.
Qed.

(** C7.  [TransformCmdLine] returns the command line it was given, with
    neither region written, when both selections find no candidate, and
    when the dialog is shown and returns the empty string. *)
Theorem TransformCmdLine_no_change
    (ShowRefsDialog : list string -> string -> string) (options : Options)
    (cmdLine : CmdLine) (repo : git_repository) :
  let currentPrefix := w2mb (GetUserPrefix cmdLine) in
  let currentSuffix := w2mb (GetSuggestedSuffix cmdLine) in
  (ObtainSuitableRefsByStrictPrefix options repo currentPrefix [] = Done [] ->
   ObtainSuitableRefsByPartialPrefixes options repo currentPrefix [] = Done [] ->
   TransformCmdLine ShowRefsDialog options cmdLine repo = Done cmdLine) /\
  (forall refs,
      SelectSuitableRefs options repo currentPrefix = Done refs ->
      refs <> [] ->
      FindCommonPrefix (unique (sort refs)) = currentPrefix ->
      showDialog options = true ->
      ShowRefsDialog (unique (sort refs)) (currentPrefix ++ currentSuffix) = "" ->
      TransformCmdLine ShowRefsDialog options cmdLine repo = Done cmdLine).
Proof.
  intros currentPrefix currentSuffix. split.
  - intros Hstrict Hpartial. apply TransformCmdLine_nothing_selected.
    unfold SelectSuitableRefs. fold currentPrefix.
    rewrite Hstrict. cbn [bind]. exact Hpartial.
  - intros refs Hsel Hne Hsame Hdialog Hcancel.
    rewrite (TransformCmdLine_selected _ _ _ _ refs Hsel Hne). cbv zeta.
    fold currentPrefix currentSuffix.
    now rewrite Hsame, String.eqb_refl, Hdialog, Hcancel.
Qed.

(** C8, amended.  When a run commits a common prefix, the next run on the
    same repository, with no edit in between, selects by strict prefix,
    recomputes the same [newPrefix] and does not commit again.  It is not
    idle for that.  With the dialog off it takes the cycling branch: it
    writes the next suffix of the cycler into the suggested-suffix region
    and the editable prefix stays [newPrefix].  With the dialog on it shows
    the dialog with the candidates and [newPrefix ++ currentSuffix]: when
    the dialog returns the empty string the command line stays as the first
    run left it, and otherwise the suggested suffix is cleared and the
    editable prefix is set to the reference that the dialog returned. *)
Theorem TransformCmdLine_commit_then_suggest (laws : HostLaws host)
    (ShowRefsDialog1 ShowRefsDialog2 : list string -> string -> string)
    (options : Options) (cmdLine : CmdLine) (repo : git_repository)
    (refs : list string) :
  let currentPrefix := w2mb (GetUserPrefix cmdLine) in
  let currentSuffix := w2mb (GetSuggestedSuffix cmdLine) in
  let newPrefix := FindCommonPrefix (unique (sort refs)) in
  let committed := ReplaceUserPrefix cmdLine (mb2w newPrefix) in
  (2 * Z.of_nat (List.length repo) <= PTRDIFF_MAX)%Z ->
  SelectSuitableRefs options repo currentPrefix = Done refs ->
  refs <> [] ->
  newPrefix <> currentPrefix ->
  TransformCmdLine ShowRefsDialog1 options cmdLine repo = Done committed /\
  w2mb (GetUserPrefix committed) = newPrefix /\
  exists refs',
    SelectSuitableRefs options repo newPrefix = Done refs' /\
    refs' = filter (fun n => StartsWith n newPrefix) (short_names options repo) /\
    refs' <> [] /\
    FindCommonPrefix (unique (sort refs')) = newPrefix /\
    (showDialog options = false ->
     exists newSuffix,
       ObtainNextSuggestedSuffix (suggestNextSuffix options) newPrefix
         currentSuffix (unique (sort refs')) = Done newSuffix /\
       In (newPrefix ++ newSuffix) refs' /\
       TransformCmdLine ShowRefsDialog2 options committed repo
       = Done (ReplaceSuggestedSuffix committed (mb2w newSuffix)) /\
       w2mb (GetUserPrefix (ReplaceSuggestedSuffix committed (mb2w newSuffix)))
       = newPrefix /\
       w2mb (GetSuggestedSuffix
               (ReplaceSuggestedSuffix committed (mb2w newSuffix)))
       = newSuffix) /\
    (showDialog options = true ->
     let selectedRef :=
       ShowRefsDialog2 (unique (sort refs')) (newPrefix ++ currentSuffix) in
     let selected :=
       ReplaceUserPrefix (ReplaceSuggestedSuffix committed wempty)
         (mb2w selectedRef) in
     (selectedRef = "" ->
      TransformCmdLine ShowRefsDialog2 options committed repo
      = Done committed) /\
     (selectedRef <> "" ->
      TransformCmdLine ShowRefsDialog2 options committed repo
      = Done selected /\
      w2mb (GetUserPrefix selected) = selectedRef /\
      w2mb (GetSuggestedSuffix selected) = "")).
Proof.
  intros currentPrefix currentSuffix newPrefix committed Hmax Hsel Hne Hnew.
  assert (Hcp : w2mb (GetUserPrefix committed) = newPrefix).
  { unfold committed.
    now rewrite (get_prefix_replace_prefix _ laws), (w2mb_mb2w _ laws). }
  assert (Hcs : w2mb (GetSuggestedSuffix committed) = currentSuffix).
  { unfold committed. now rewrite (get_suffix_replace_prefix _ laws). }
  split; [|split; [exact Hcp|]].
  { rewrite (TransformCmdLine_selected _ _ _ _ refs Hsel Hne). cbv zeta.
    fold newPrefix currentPrefix.
    destruct (String.eqb_spec newPrefix currentPrefix); [contradiction|].
    reflexivity. }
  set (names := short_names options repo).
  set (strict' := filter (fun n => StartsWith n newPrefix) names).
  assert (Hincl : incl refs names).
  { destruct (SelectSuitableRefs_done _ _ _ _ Hsel) as [_ ->].
    fold names.
    destruct (filter (fun n => StartsWith n currentPrefix) names) eqn:E;
      [|rewrite <- E]; intros x Hx; now apply filter_In in Hx. }
  assert (Hnp : newPrefix = FindCommonPrefix refs)
    by apply FindCommonPrefix_unique_sort.
  destruct (strict_selection_on_common_prefix names refs Hne Hincl)
    as (_ & Hne' & Hsame).
  rewrite <- Hnp in Hne', Hsame. fold strict' in Hne', Hsame.
  assert (Hsel' : SelectSuitableRefs options repo newPrefix = Done strict').
  { rewrite (SelectSuitableRefs_again _ _ _ newPrefix _ Hsel).
    fold names strict'. destruct strict'; [congruence | reflexivity]. }
  assert (Hsame' : FindCommonPrefix (unique (sort strict')) = newPrefix)
    by now rewrite FindCommonPrefix_unique_sort.
  assert (Hrun : TransformCmdLine ShowRefsDialog2 options committed repo =
                 if showDialog options then
                   let selectedRef :=
                     ShowRefsDialog2 (unique (sort strict'))
                       (newPrefix ++ currentSuffix) in
                   if negb (String.eqb selectedRef "") then
                     Done (ReplaceUserPrefix
                             (ReplaceSuggestedSuffix committed wempty)
                             (mb2w selectedRef))
                   else Done committed
                 else
                   newSuffix <- ObtainNextSuggestedSuffix
                                  (suggestNextSuffix options) newPrefix
                                  currentSuffix (unique (sort strict')) ;;
                   Done (ReplaceSuggestedSuffix committed (mb2w newSuffix))).
  { rewrite <- Hcp in Hsel'.
    rewrite (TransformCmdLine_selected _ _ _ _ strict' Hsel' Hne'). cbv zeta.
    now rewrite Hcp, Hcs, Hsame', String.eqb_refl. }
  exists strict'. split; [exact Hsel'|]. split; [reflexivity|].
  split; [exact Hne'|]. split; [exact Hsame'|]. split.
  - intros Hoff.
    destruct (cycler_returns (suggestNextSuffix options) newPrefix
                currentSuffix (unique (sort strict')))
      as (newSuffix & Hcycle & Hin).
    + now apply unique_sort_not_nil.
    + now apply length_candidates.
    + intros x Hx. apply (proj1 (In_unique_sort _ _)) in Hx.
      exact (strict_candidates_start names newPrefix x Hx).
    + exists newSuffix. split; [exact Hcycle|].
      split; [exact (proj1 (In_unique_sort _ _) Hin)|].
      split; [now rewrite Hrun, Hoff, Hcycle|].
      split.
      * now rewrite (get_prefix_replace_suffix _ laws).
      * now rewrite (get_suffix_replace_suffix _ laws), (w2mb_mb2w _ laws).
  - intros Hon selectedRef selected. rewrite Hrun, Hon. cbv zeta.
    fold selectedRef. fold selected. split.
    + intros ->. reflexivity.
    + intros Hchosen.
      destruct (String.eqb_spec selectedRef ""); [contradiction|].
      cbn [negb]. split; [reflexivity|]. unfold selected. split.
      * now rewrite (get_prefix_replace_prefix _ laws), (w2mb_mb2w _ laws).
      * now rewrite (get_suffix_replace_prefix _ laws),
          (get_suffix_replace_suffix _ laws), (w2mb_wempty _ laws).
Qed.

(** C9, amended.  An invocation that returns has done exactly one of four
    things.  It has left the command line as it was (no candidate, or the
    dialog cancelled).  Or it has committed: the editable prefix is replaced
    by the common prefix of the candidates, which differs from the typed
    prefix, and the suggested suffix is left as it was; after a strict
    selection the new prefix extends the typed one.  Or, in dialog mode, it
    has cleared the suggested suffix and set the editable prefix to the
    selection.  Or it has written the next suffix and left the editable
    prefix as it was.  The last two happen only when every candidate
    starts with the typed prefix. *)
Theorem TransformCmdLine_transformations (laws : HostLaws host)
    (ShowRefsDialog : list string -> string -> string) (options : Options)
    (cmdLine : CmdLine) (repo : git_repository) (cmdLine' : CmdLine) :
  TransformCmdLine ShowRefsDialog options cmdLine repo = Done cmdLine' ->
  let currentPrefix := w2mb (GetUserPrefix cmdLine) in
  let currentSuffix := w2mb (GetSuggestedSuffix cmdLine) in
  exists strict refs,
    ObtainSuitableRefsByStrictPrefix options repo currentPrefix [] = Done strict /\
    SelectSuitableRefs options repo currentPrefix = Done refs /\
    let suitableRefs := unique (sort refs) in
    let newPrefix := FindCommonPrefix suitableRefs in
    let selectedRef := ShowRefsDialog suitableRefs (currentPrefix ++ currentSuffix) in
    (cmdLine' = cmdLine /\
     (refs = [] \/
      newPrefix = currentPrefix /\ showDialog options = true /\ selectedRef = ""))
    \/
    (refs <> [] /\ newPrefix <> currentPrefix /\
     cmdLine' = ReplaceUserPrefix cmdLine (mb2w newPrefix) /\
     w2mb (GetUserPrefix cmdLine') = newPrefix /\
     GetSuggestedSuffix cmdLine' = GetSuggestedSuffix cmdLine /\
     (strict <> [] -> is_prefix currentPrefix newPrefix) /\
     (strict = [] -> ~ is_prefix currentPrefix newPrefix))
    \/
    (refs = strict /\ refs <> [] /\ newPrefix = currentPrefix /\
     showDialog options = true /\ selectedRef <> "" /\
     cmdLine' = ReplaceUserPrefix (ReplaceSuggestedSuffix cmdLine wempty)
                  (mb2w selectedRef) /\
     w2mb (GetUserPrefix cmdLine') = selectedRef /\
     w2mb (GetSuggestedSuffix cmdLine') = "")
    \/
    (refs = strict /\ refs <> [] /\ newPrefix = currentPrefix /\
     showDialog options = false /\
     exists newSuffix,
       ObtainNextSuggestedSuffix (suggestNextSuffix options) currentPrefix
         currentSuffix suitableRefs = Done newSuffix /\
       cmdLine' = ReplaceSuggestedSuffix cmdLine (mb2w newSuffix) /\
       GetUserPrefix cmdLine' = GetUserPrefix cmdLine /\
       w2mb (GetSuggestedSuffix cmdLine') = newSuffix).
Proof.
  intros Hrun currentPrefix currentSuffix.
  destruct (SelectSuitableRefs options repo currentPrefix) as [refs| |] eqn:Hsel;
    try (unfold TransformCmdLine in Hrun; fold currentPrefix in Hrun;
         rewrite Hsel in Hrun; discriminate Hrun).
  destruct (SelectSuitableRefs_done _ _ _ _ Hsel) as [Hstrict Hrefs].
  set (names := short_names options repo) in *.
  set (strict := filter (fun n => StartsWith n currentPrefix) names) in *.
  exists strict, refs. split; [exact Hstrict|]. split; [reflexivity|].
  intros suitableRefs newPrefix selectedRef.
  assert (Hcase : refs = [] \/ refs <> [])
    by (destruct refs; [now left | right; discriminate]).
  destruct Hcase as [Hnil|Hne].
  { left. rewrite Hnil in Hsel.
    rewrite (TransformCmdLine_nothing_selected _ _ _ _ Hsel) in Hrun.
    injection Hrun as <-. split; [reflexivity | now left]. }
  rewrite (TransformCmdLine_selected _ _ _ _ refs Hsel Hne) in Hrun.
  cbv zeta in Hrun. fold currentPrefix currentSuffix in Hrun.
  fold suitableRefs in Hrun. fold newPrefix in Hrun. fold selectedRef in Hrun.
  assert (Hnp : newPrefix = FindCommonPrefix refs)
    by apply FindCommonPrefix_unique_sort.
  destruct (String.eqb_spec newPrefix currentPrefix) as [Hsame|Hdiff];
    cbn [negb] in Hrun.
  - (* the prefix cannot be extended: the candidates are the strict ones *)
    assert (Hs : refs = strict).
    { destruct strict as [|x xs] eqn:Es; [|exact Hrefs]. exfalso.
      apply (partial_selection_commits names currentPrefix).
      - exact Es.
      - now rewrite <- Hrefs.
      - now rewrite <- Hrefs, <- Hnp. }
    destruct (showDialog options) eqn:Hdialog.
    + destruct (String.eqb_spec selectedRef "") as [Hcancel|Hchosen];
        cbn [negb] in Hrun; injection Hrun as <-.
      * left. split; [reflexivity | right; now repeat split].
      * right; right; left. repeat split; trivial.
        -- now rewrite (get_prefix_replace_prefix _ laws), (w2mb_mb2w _ laws).
        -- now rewrite (get_suffix_replace_prefix _ laws),
             (get_suffix_replace_suffix _ laws), (w2mb_wempty _ laws).
    + right; right; right.
      destruct (ObtainNextSuggestedSuffix (suggestNextSuffix options)
                  currentPrefix currentSuffix suitableRefs)
        as [newSuffix| |] eqn:Hcycle; try discriminate Hrun.
      cbn [bind] in Hrun. injection Hrun as <-.
      repeat split; trivial. exists newSuffix. repeat split; trivial.
      * now rewrite (get_prefix_replace_suffix _ laws).
      * now rewrite (get_suffix_replace_suffix _ laws), (w2mb_mb2w _ laws).
  - right; left. injection Hrun as <-. repeat split; trivial.
    + now rewrite (get_prefix_replace_prefix _ laws), (w2mb_mb2w _ laws).
    + now rewrite (get_suffix_replace_prefix _ laws).
    + intros Hstrict_ne. rewrite Hnp.
      assert (Hs : refs = strict)
        by (destruct strict; [congruence | exact Hrefs]).
      destruct (FindCommonPrefix_greatest refs) as [_ Hmax].
      apply Hmax; trivial. rewrite Hs. apply strict_candidates_start.
    + intros Hnone Hext.
      destruct (FindCommonPrefix_greatest refs) as [Hc _].
      rewrite <- Hnp in Hc.
      assert (Hin : incl refs strict).
      { intros x Hx. apply filter_In. split.
        - rewrite Hrefs, Hnone in Hx. now apply filter_In in Hx.
        - apply StartsWith_iff.
          apply (is_prefix_trans _ _ _ Hext), Hc, Hx. }
      destruct refs as [|x xs]; [congruence|].
      specialize (Hin x (or_introl eq_refl)). now rewrite Hnone in Hin.
Qed.

End OrchestratorProofs.

(** ** The orchestrator on concrete command lines *)

Lemma TransformCmdLine_no_change_witness :
  let repo := ["refs/heads/master"; "refs/heads/main"] in
  @TransformCmdLine x64 SplitHost (fun _ _ => "")
    (mkOptions false true false) (mkSplitLine "x" "") repo
  = Done (mkSplitLine "x" "") /\
  @TransformCmdLine x64 SplitHost (fun _ _ => "")
    (mkOptions false true true) (mkSplitLine "ma" "in") repo
  = Done (mkSplitLine "ma" "in").
Proof.
  intros repo. split.
  - apply (proj1 (@TransformCmdLine_no_change x64 SplitHost (fun _ _ => "")
                    (mkOptions false true false) (mkSplitLine "x" "") repo));
      reflexivity.
  - apply (proj2 (@TransformCmdLine_no_change x64 SplitHost (fun _ _ => "")
                    (mkOptions false true true) (mkSplitLine "ma" "in") repo)
             ["master"; "main"]);
      try reflexivity.
    discriminate.
Defined.

(** A run that commits is followed by a run that changes the command line
    again: the typed prefix "m" is committed to "ma", and the next run
    suggests the suffix "in". *)
Lemma TransformCmdLine_commit_counterexample :
  let options := mkOptions false true false in
  let repo := ["refs/heads/master"; "refs/heads/main"] in
  @TransformCmdLine x64 SplitHost (fun _ _ => "") options
    (mkSplitLine "m" "") repo = Done (mkSplitLine "ma" "") /\
  @TransformCmdLine x64 SplitHost (fun _ _ => "") options
    (mkSplitLine "ma" "") repo = Done (mkSplitLine "ma" "in") /\
  mkSplitLine "ma" "in" <> mkSplitLine "ma" "".
Proof.
  intros options repo. split; [reflexivity | split; [reflexivity|]].
  discriminate.
Qed.

Lemma TransformCmdLine_commit_then_suggest_witness :
  let options := mkOptions false true false in
  let repo := ["refs/heads/master"; "refs/heads/main"] in
  @TransformCmdLine x64 SplitHost (fun _ _ => "") options
    (mkSplitLine "m" "") repo = Done (mkSplitLine "ma" "") /\
  exists refs',
    @SelectSuitableRefs options repo "ma" = Done refs' /\
    FindCommonPrefix (unique (sort refs')) = "ma".
Proof.
  intros options repo.
  destruct (@TransformCmdLine_commit_then_suggest x64 SplitHost
              SplitHost_lawful (fun _ _ => "") (fun _ _ => "") options
              (mkSplitLine "m" "") repo ["master"; "main"])
    as (Hfirst & _ & refs' & Hsel & _ & _ & Hsame & _).
  - rewrite PTRDIFF_MAX_x64. simpl. lia.
  - reflexivity.
  - discriminate.
  - discriminate.
  - split; [exact Hfirst|]. exists refs'. split; [exact Hsel | exact Hsame].
Defined.

(** Two runs that neither grow the editable prefix nor leave it as it was:
    the typed "s/t" is replaced by "svn/trunk", of which it is no prefix,
    and the typed "f/b" is replaced by the shorter "f". *)
Lemma TransformCmdLine_transformations_counterexample :
  let options := mkOptions false true false in
  (@TransformCmdLine x64 SplitHost (fun _ _ => "") options
     (mkSplitLine "s/t" "") ["refs/heads/svn/trunk"; "refs/heads/master"]
   = Done (mkSplitLine "svn/trunk" "") /\
   ~ is_prefix "s/t" "svn/trunk" /\
   "svn/trunk" <> "s/t") /\
  (@TransformCmdLine x64 SplitHost (fun _ _ => "") options
     (mkSplitLine "f/b" "") ["refs/heads/foo/bar"; "refs/heads/fa/baz"]
   = Done (mkSplitLine "f" "") /\
   ~ is_prefix "f/b" "f" /\
   String.length "f" < String.length "f/b").
Proof.
  intros options. split; (split; [reflexivity | split]).
  - intros [rest E]. discriminate E.
  - discriminate.
  - intros [rest E]. discriminate E.
  - simpl. lia.
Qed.

Lemma TransformCmdLine_transformations_witness :
  let options := mkOptions false true false in
  let repo := ["refs/heads/master"; "refs/heads/main"] in
  exists strict refs,
    ObtainSuitableRefsByStrictPrefix options repo "ma" [] = Done strict /\
    @SelectSuitableRefs options repo "ma" = Done refs.
Proof.
  intros options repo.
  destruct (@TransformCmdLine_transformations x64 SplitHost SplitHost_lawful
              (fun _ _ => "") options (mkSplitLine "ma" "") repo
              (mkSplitLine "ma" "in") eq_refl)
    as (strict & refs & Hstrict & Hsel & _).
  exists strict, refs. split; [exact Hstrict | exact Hsel].
Defined.

(** ** The candidate set: sorted and without duplicates *)

Lemma ltb_lt (a b : string) :
  String.ltb a b = true <-> String_as_OT.lt a b.
Proof.
  rewrite <- String_as_OT.cmp_lt. unfold String.ltb, String_as_OT.cmp.
  destruct (String.compare a b); split; congruence.
Qed.

Lemma ltb_trans (a b c : string) :
  String.ltb a b = true -> String.ltb b c = true -> String.ltb a c = true.
Proof. rewrite !ltb_lt. apply String_as_OT.lt_trans. Qed.

Lemma ltb_irrefl (a : string) : String.ltb a a = false.
Proof.
  unfold String.ltb.
  pose proof (proj2 (String_as_OT.cmp_eq a a) eq_refl) as E.
  unfold String_as_OT.cmp in E. now rewrite E.
Qed.

Lemma ltb_asym (a b : string) :
  String.ltb a b = true -> String.ltb b a = false.
Proof.
  intros Hab. destruct (String.ltb b a) eqn:Hba; trivial.
  pose proof (ltb_trans _ _ _ Hab Hba) as H. now rewrite ltb_irrefl in H.
Qed.

Lemma ltb_antisym (a b : string) :
  String.ltb a b = false -> String.ltb b a = false -> a = b.
Proof.
  unfold String.ltb. rewrite (String.compare_antisym b a).
  destruct (String.compare a b) eqn:E; simpl; try discriminate.
  intros _ _. now apply String.compare_eq_iff.
Qed.

Lemma not_ltb_trans (a b c : string) :
  String.ltb b a = false -> String.ltb c b = false -> String.ltb c a = false.
Proof.
  intros Hab Hbc. destruct (String.ltb c a) eqn:Hca; trivial.
  destruct (String.ltb a b) eqn:Hab'.
  - pose proof (ltb_trans _ _ _ Hca Hab') as H. congruence.
  - pose proof (ltb_antisym _ _ Hab' Hab) as <-. congruence.
Qed.

Lemma sort_insert_ascending (x : string) (l : list string) :
  ascending l -> ascending (sort_insert x l).
Proof.
  unfold ascending. induction l as [|y l IH]; intros Hl; simpl.
  - repeat constructor.
  - apply StronglySorted_inv in Hl. destruct Hl as [Hl Hy].
    rewrite Forall_forall in Hy.
    destruct (String.ltb x y) eqn:Hxy.
    + constructor; [now constructor; [|apply Forall_forall]|].
      apply Forall_forall. intros b [<-|Hb]; [now apply ltb_asym|].
      apply (not_ltb_trans x y b); [now apply ltb_asym | now apply Hy].
    + constructor; [now apply IH|].
      apply Forall_forall. intros b Hb. apply In_sort_insert in Hb.
      destruct Hb as [->|Hb]; [exact Hxy | now apply Hy].
Qed.

Lemma sort_ascending (l : list string) : ascending (sort l).
Proof.
  induction l as [|a l IH]; simpl; [constructor|].
  now apply sort_insert_ascending.
Qed.

Lemma sort_insert_permutation (x : string) (l : list string) :
  Permutation (sort_insert x l) (x :: l).
Proof.
  induction l as [|y l IH]; simpl; [reflexivity|].
  destruct (String.ltb x y); [reflexivity|].
  rewrite IH. apply perm_swap.
Qed.

Lemma sort_permutation (l : list string) : Permutation (sort l) l.
Proof.
  induction l as [|a l IH]; simpl; [reflexivity|].
  now rewrite sort_insert_permutation, IH.
Qed.

Lemma ascending_permutation_unique (l1 : list string) :
  forall l2, Permutation l1 l2 -> ascending l1 -> ascending l2 -> l1 = l2.
Proof.
  unfold ascending. induction l1 as [|a l1 IH]; intros l2 Hp H1 H2.
  - now apply Permutation_nil in Hp.
  - destruct l2 as [|b l2];
      [now apply Permutation_sym, Permutation_nil in Hp|].
    apply StronglySorted_inv in H1, H2.
    destruct H1 as [H1 Ha], H2 as [H2 Hb].
    rewrite Forall_forall in Ha, Hb.
    assert (E : a = b).
    { assert (Hain : In a (b :: l2))
        by (apply (Permutation_in _ Hp); now left).
      assert (Hbin : In b (a :: l1))
        by (apply (Permutation_in _ (Permutation_sym Hp)); now left).
      destruct Hain as [->|Hain]; trivial.
      destruct Hbin as [->|Hbin]; trivial.
      apply ltb_antisym; [now apply Hb | now apply Ha]. }
    subst b. f_equal. apply IH; trivial.
    now apply Permutation_cons_inv in Hp.
Qed.

Lemma unique_ascending (l : list string) : ascending l -> ascending (unique l).
Proof.
  unfold ascending. induction l as [|a l IH]; intros Hl; [constructor|].
  destruct l as [|b l]; [exact Hl|].
  rewrite unique_cons2. apply StronglySorted_inv in Hl.
  destruct Hl as [Hl Ha].
  destruct (String.eqb a b); [now apply IH|].
  constructor; [now apply IH|].
  rewrite Forall_forall in *. intros x Hx. apply Ha. now apply In_unique.
Qed.

Lemma unique_ascending_NoDup (l : list string) :
  ascending l -> NoDup (unique l).
Proof.
  unfold ascending. induction l as [|a l IH]; intros Hl; [constructor|].
  destruct l as [|b l]; [repeat constructor; intros []|].
  rewrite unique_cons2. apply StronglySorted_inv in Hl.
  destruct Hl as [Hl Ha]. rewrite Forall_forall in Ha.
  destruct (String.eqb_spec a b) as [->|Hab]; [now apply IH|].
  constructor; [|now apply IH].
  intros Hin. apply (proj1 (In_unique _ _)) in Hin.
  destruct Hin as [Hba|Hin]; [congruence|].
  apply StronglySorted_inv in Hl. destruct Hl as [_ Hb].
  rewrite Forall_forall in Hb.
  apply Hab, ltb_antisym; [apply Hb, Hin | apply Ha; now left].
Qed.

(** X3.  The vector that [std::sort] leaves is determined by its
    postcondition, a sorted permutation of the input: it is [sort].  After
    [unique], the candidates are sorted, without duplicates, and the same
    strings, so a candidate has one index. *)
Theorem candidate_set_sorted_unique (suitableRefs : list string) :
  (forall v, Permutation v suitableRefs -> ascending v -> v = sort suitableRefs) /\
  ascending (unique (sort suitableRefs)) /\
  NoDup (unique (sort suitableRefs)) /\
  (forall s, In s (unique (sort suitableRefs)) <-> In s suitableRefs) /\
  (forall x i j,
      nth_error (unique (sort suitableRefs)) i = Some x ->
      nth_error (unique (sort suitableRefs)) j = Some x -> i = j).
Proof.
  split; [|split; [|split; [|split]]].
  - intros v Hp Hv. apply ascending_permutation_unique; trivial.
    + now rewrite Hp, sort_permutation.
    + apply sort_ascending.
  - apply unique_ascending, sort_ascending.
  - apply unique_ascending_NoDup, sort_ascending.
  - intros s. apply In_unique_sort.
  - intros x i j Hi Hj.
    pose proof (unique_ascending_NoDup _ (sort_ascending suitableRefs)) as Hnd.
    rewrite NoDup_nth_error in Hnd. apply Hnd; [|congruence].
    apply nth_error_Some. congruence.
Qed.

Lemma candidate_set_sorted_unique_witness :
  unique (sort ["master"; "main"; "master"; "dev"]) = ["dev"; "main"; "master"] /\
  ["dev"; "main"; "master"; "master"] = sort ["master"; "main"; "master"; "dev"].
Proof.
  destruct (candidate_set_sorted_unique ["master"; "main"; "master"; "dev"])
    as (Hsort & _).
  split; [reflexivity|].
  apply Hsort.
  - apply Permutation_sym.
    apply (perm_trans (l' := ["main"; "master"; "master"; "dev"]));
      [apply perm_swap|].
    apply (perm_trans (l' := ["main"; "master"; "dev"; "master"]));
      [do 2 apply perm_skip; apply perm_swap|].
    apply (perm_trans (l' := ["main"; "dev"; "master"; "master"]));
      [apply perm_skip, perm_swap|].
    apply perm_swap.
  - repeat constructor.
Defined.

(** ** The orchestrator at the cycler *)

Section OrchestratorReturns.
Context {target : Target} {host : Host}.

(** When the common prefix of the candidates is the typed prefix, the
    candidates are those of the strict selection. *)
Lemma no_commit_strict (options : Options) (repo : git_repository)
    (currentPrefix : string) (refs : list string) :
  SelectSuitableRefs options repo currentPrefix = Done refs ->
  refs <> [] ->
  FindCommonPrefix (unique (sort refs)) = currentPrefix ->
  refs = filter (fun n => StartsWith n currentPrefix) (short_names options repo).
Proof.
  intros Hsel Hne Hsame.
  destruct (SelectSuitableRefs_done _ _ _ _ Hsel) as [_ Hrefs].
  rewrite FindCommonPrefix_unique_sort in Hsame.
  destruct (filter (fun n => StartsWith n currentPrefix)
              (short_names options repo)) as [|x xs] eqn:Es; [|exact Hrefs].
  exfalso.
  apply (partial_selection_commits (short_names options repo) currentPrefix).
  - exact Es.
  - now rewrite <- Hrefs.
  - now rewrite <- Hrefs.
Qed.

(** X4.  When an invocation reaches the cycler (the selection has returned
    candidates whose common prefix is the typed prefix), the call keeps the
    contract of the cycler: the candidates are those of the strict
    selection, never those of the fallback, so every one of them starts
    with the prefix; the vector is not empty and the selected index is in
    range.  With the dialog off the invocation returns, and what it writes
    into the suggested-suffix region is the rest of the selected
    candidate. *)
Theorem TransformCmdLine_cycler_in_contract
    (ShowRefsDialog : list string -> string -> string) (options : Options)
    (cmdLine : CmdLine) (repo : git_repository) (refs : list string) :
  let currentPrefix := w2mb (GetUserPrefix cmdLine) in
  let currentSuffix := w2mb (GetSuggestedSuffix cmdLine) in
  let suitableRefs := unique (sort refs) in
  SelectSuitableRefs options repo currentPrefix = Done refs ->
  refs <> [] ->
  FindCommonPrefix suitableRefs = currentPrefix ->
  (Z.of_nat (List.length suitableRefs) <= PTRDIFF_MAX)%Z ->
  refs = filter (fun n => StartsWith n currentPrefix)
           (short_names options repo) /\
  suitableRefs <> [] /\
  common_prefix currentPrefix suitableRefs /\
  exists (k : nat) (newSuffix : string),
    next_index (suggestNextSuffix options) (currentPrefix ++ currentSuffix)
      suitableRefs = Z.of_nat k /\
    nth_error suitableRefs k = Some (currentPrefix ++ newSuffix) /\
    (showDialog options = false ->
     TransformCmdLine ShowRefsDialog options cmdLine repo
     = Done (ReplaceSuggestedSuffix cmdLine (mb2w newSuffix))).
Proof.
  intros currentPrefix currentSuffix suitableRefs Hsel Hne Hsame Hmax.
  pose proof (no_commit_strict _ _ _ _ Hsel Hne Hsame) as Hrefs.
  assert (Hne' : suitableRefs <> []) by now apply unique_sort_not_nil.
  assert (Hstart : common_prefix currentPrefix suitableRefs).
  { intros x Hx. apply (proj1 (In_unique_sort _ _)) in Hx.
    rewrite Hrefs in Hx.
    exact (strict_candidates_start _ currentPrefix x Hx). }
  split; [exact Hrefs|]. split; [exact Hne'|]. split; [exact Hstart|].
  destruct (cycler_selects (suggestNextSuffix options) currentPrefix
              currentSuffix suitableRefs Hne' Hmax)
    as (k & candidate & Hk & Hn & Hres).
  destruct (Hstart candidate (nth_error_In _ _ Hn)) as [newSuffix ->].
  exists k, newSuffix. split; [exact Hk|]. split; [exact Hn|].
  intros Hoff.
  rewrite (TransformCmdLine_selected _ _ _ _ refs Hsel Hne). cbv zeta.
  fold currentPrefix currentSuffix. fold suitableRefs.
  rewrite Hsame, String.eqb_refl, Hoff. cbn [negb].
  now rewrite Hres, DropPrefix_append.
Qed.

End OrchestratorReturns.

Lemma TransformCmdLine_cycler_in_contract_witness :
  exists (k : nat) (newSuffix : string),
    nth_error (unique (sort ["master"; "main"])) k = Some ("ma" ++ newSuffix) /\
    @TransformCmdLine x64 SplitHost (fun _ _ => "")
      (mkOptions false true false) (mkSplitLine "ma" "")
      ["refs/heads/master"; "refs/heads/main"]
    = Done (mkSplitLine "ma" newSuffix).
Proof.
  destruct (@TransformCmdLine_cycler_in_contract x64 SplitHost (fun _ _ => "")
              (mkOptions false true false) (mkSplitLine "ma" "")
              ["refs/heads/master"; "refs/heads/main"] ["master"; "main"])
    as (_ & _ & _ & k & newSuffix & _ & Hn & Hrun).
  - reflexivity.
  - discriminate.
  - reflexivity.
  - rewrite PTRDIFF_MAX_x64. simpl. lia.
  - exists k, newSuffix. split; [exact Hn|]. now apply Hrun.
Defined.

(** The end-to-end example of the specification: with the branches
    master and main and the typed prefix "ma", the dialog off and the
    cycling forward, the first invocation suggests "in" and the second
    "ster". *)
Theorem TransformCmdLine_end_to_end :
  let options := mkOptions false true false in
  let repo := ["refs/heads/master"; "refs/heads/main"] in
  @SelectSuitableRefs options repo "ma" = Done ["master"; "main"] /\
  FindCommonPrefix (unique (sort ["master"; "main"])) = "ma" /\
  @TransformCmdLine x64 SplitHost (fun _ _ => "") options
    (mkSplitLine "ma" "") repo = Done (mkSplitLine "ma" "in") /\
  @TransformCmdLine x64 SplitHost (fun _ _ => "") options
    (mkSplitLine "ma" "in") repo = Done (mkSplitLine "ma" "ster") /\
  @TransformCmdLine x86 SplitHost (fun _ _ => "") options
    (mkSplitLine "ma" "") repo = Done (mkSplitLine "ma" "in") /\
  @TransformCmdLine x86 SplitHost (fun _ _ => "") options
    (mkSplitLine "ma" "in") repo = Done (mkSplitLine "ma" "ster").
Proof. repeat split; reflexivity. Qed.

(** The assertions of [LogicTest] on the matcher that the oracle of the
    specification leaves out. *)
Theorem RefMayBeEncodedByPartialPrefix_LogicTest :
  RefMayBeEncodedByPartialPrefix "foo/bar/qux" "f/ba/q" = true /\
  RefMayBeEncodedByPartialPrefix "foo/bar/qux" "f/bar/q" = true /\
  RefMayBeEncodedByPartialPrefix "foo/bar/qux" "foo/bar/qux" = true /\
  RefMayBeEncodedByPartialPrefix "foo/bar/qux" "f/q" = false /\
  RefMayBeEncodedByPartialPrefix "foo/bar-qux" "f/brq" = false.
Proof. repeat split; reflexivity. Qed.

(** * Further properties of the code *)

(** ** The matcher and the strict prefix *)

Lemma strict_prefix_is_partial (prefix rest : string) :
  RefMayBeEncodedByPartialPrefix (prefix ++ rest) prefix = true.
Proof.
  induction prefix as [|p prefix IH]; [reflexivity|].
  cbn [append RefMayBeEncodedByPartialPrefix strchr].
  rewrite Ascii.eqb_refl.
  destruct (ispunct p || isupper p); exact IH.
Qed.

(** X1.  A reference that starts with the typed prefix is also matched by
    the partial-prefix matcher, whatever punctuation and capitals the prefix
    has: a marker that stands under the cursor is found there.  So the
    fallback selection contains the strict one, and a full name matches
    itself. *)
Theorem strict_prefix_matches_partially (ref prefix : string) :
  StartsWith ref prefix = true ->
  RefMayBeEncodedByPartialPrefix ref prefix = true /\
  RefMayBeEncodedByPartialPrefix ref ref = true /\
  forall names,
    incl (filter (fun n => StartsWith n prefix) names)
         (filter (fun n => RefMayBeEncodedByPartialPrefix n prefix) names).
Proof.
  intros Hs. apply StartsWith_iff in Hs. destruct Hs as [rest ->].
  split; [apply strict_prefix_is_partial|]. split.
  - rewrite <- (append_empty_r (prefix ++ rest)) at 1.
    apply strict_prefix_is_partial.
  - intros names x Hx. apply filter_In in Hx. destruct Hx as [Hin Hx].
    apply filter_In. split; [exact Hin|].
    apply StartsWith_iff in Hx. destruct Hx as [rest' ->].
    apply strict_prefix_is_partial.
Qed.

Lemma strict_prefix_matches_partially_witness :
  StartsWith "feature/Login-page" "feature/Log" = true /\
  RefMayBeEncodedByPartialPrefix "feature/Login-page" "feature/Log" = true.
Proof.
  split; [reflexivity|].
  apply (strict_prefix_matches_partially "feature/Login-page" "feature/Log").
  reflexivity.
Defined.

Lemma strchr_split (s : string) (c : ascii) (r : string) :
  strchr s c = Some r ->
  exists before after, s = before ++ String c after /\ r = String c after.
Proof.
  revert r; induction s as [|a s IH]; intros r; simpl; [discriminate|].
  destruct (Ascii.eqb_spec a c) as [->|_].
  - intros [= <-]. now exists "", s.
  - intros E. destruct (IH _ E) as (before & after & -> & ->).
    now exists (String a before), after.
Qed.

Lemma subsequence_append (before p s : string) :
  subsequence p s -> subsequence p (before ++ s).
Proof.
  intros H. induction before as [|a before IH]; [exact H|].
  now apply subsequence_skip.
Qed.

Lemma subsequence_length (p s : string) :
  subsequence p s -> String.length p <= String.length s.
Proof. induction 1; simpl; lia. Qed.

Lemma matcher_subsequence (prefix : string) :
  forall ref,
    RefMayBeEncodedByPartialPrefix ref prefix = true -> subsequence prefix ref.
Proof.
  induction prefix as [|p prefix IH]; intros ref; [constructor|].
  cbn [RefMayBeEncodedByPartialPrefix].
  destruct (ispunct p || isupper p).
  - destruct (strchr ref p) as [r|] eqn:Hs; [|discriminate].
    destruct (strchr_split _ _ _ Hs) as (before & after & -> & ->).
    intros H. apply subsequence_append, subsequence_take, IH, H.
  - destruct ref as [|c ref]; [discriminate|].
    destruct (Ascii.eqb_spec p c) as [->|_]; [|discriminate].
    intros H. apply subsequence_take, IH, H.
Qed.

(** X2.  When the matcher accepts, the characters of the typed prefix occur
    in the reference in the same order, so the prefix is not longer than the
    reference: a match never invents a character. *)
Theorem partial_match_is_subsequence (ref prefix : string) :
  RefMayBeEncodedByPartialPrefix ref prefix = true ->
  subsequence prefix ref /\ String.length prefix <= String.length ref.
Proof.
  intros H. apply matcher_subsequence in H.
  split; [exact H | now apply subsequence_length].
Qed.

Lemma partial_match_is_subsequence_witness :
  RefMayBeEncodedByPartialPrefix "cypok/arm/master" "cy/a/m" = true /\
  subsequence "cy/a/m" "cypok/arm/master".
Proof.
  split; [reflexivity|].
  apply (partial_match_is_subsequence "cypok/arm/master" "cy/a/m").
  reflexivity.
Defined.

Lemma marker_free_matcher (prefix : string) :
  no_marker prefix = true ->
  forall ref,
    RefMayBeEncodedByPartialPrefix ref prefix = StartsWith ref prefix.
Proof.
  unfold StartsWith.
  induction prefix as [|p prefix IH]; intros Hm ref.
  - now destruct ref.
  - cbn [no_marker] in Hm. apply andb_prop in Hm. destruct Hm as [Hp Hm].
    apply negb_true_iff in Hp. unfold is_marker in Hp.
    cbn [RefMayBeEncodedByPartialPrefix]. rewrite Hp.
    destruct ref as [|c ref]; [reflexivity|]. simpl.
    destruct (Ascii.eqb_spec p c) as [->|Hpc];
      destruct (ascii_dec _ _) as [E|E]; try congruence.
    now apply IH.
Qed.

(** X5.  For a typed prefix with no punctuation and no uppercase letter the
    partial-prefix matcher is the strict prefix test: the fallback selection
    finds nothing that the strict selection did not find. *)
Theorem marker_free_partial_is_strict (ref prefix : string) :
  no_marker prefix = true ->
  RefMayBeEncodedByPartialPrefix ref prefix = StartsWith ref prefix.
Proof. intros Hm. now apply marker_free_matcher. Qed.

Lemma marker_free_partial_is_strict_witness :
  no_marker "feat2" = true /\
  RefMayBeEncodedByPartialPrefix "feature/x" "feat2" = StartsWith "feature/x" "feat2".
Proof.
  split; [reflexivity|].
  apply (marker_free_partial_is_strict "feature/x" "feat2"). reflexivity.
Defined.

(** ** The cycler in use *)

Lemma append_inj_l (p s t : string) : p ++ s = p ++ t -> s = t.
Proof.
  induction p as [|a p IH]; simpl; [trivial|].
  intros [= E]. now apply IH.
Qed.

Section CyclerInUse.
Context {target : Target}.

Lemma at_index_nil (idx : Z) : at_index [] idx = Undefined.
Proof.
  unfold at_index. change (Z.of_nat (List.length (@nil string))) with 0%Z.
  destruct (0 <=? idx)%Z eqn:A; destruct (idx <? 0)%Z eqn:B; simpl;
    try reflexivity.
  apply Z.leb_le in A. apply Z.ltb_lt in B. lia.
Qed.

(** X8.  On an empty vector the cycler indexes out of range in both
    directions: forward at index 0, backward at the wrapped-around index
    [SIZE_MAX].  The call is undefined; [TransformCmdLine] returns before it
    when there is no candidate. *)
Theorem ObtainNextSuggestedSuffix_empty (forwardSearch : bool)
    (currentPrefix currentSuffix : string) :
  next_index true (currentPrefix ++ currentSuffix) [] = 0%Z /\
  ((0 <= size_t_bits)%Z ->
   next_index false (currentPrefix ++ currentSuffix) []
   = (2 ^ size_t_bits - 1)%Z) /\
  ObtainNextSuggestedSuffix forwardSearch currentPrefix currentSuffix []
  = Undefined.
Proof.
  split; [reflexivity|]. split.
  - intros Hbits. unfold next_index. simpl. unfold size_sub, to_size_t.
    assert (0 < 2 ^ size_t_bits)%Z by (apply Z.pow_pos_nonneg; lia).
    replace (0 - 1)%Z with (2 ^ size_t_bits - 1 + -1 * 2 ^ size_t_bits)%Z
      by lia.
    rewrite Z.mod_add by lia. apply Z.mod_small. lia.
  - unfold ObtainNextSuggestedSuffix.
    now rewrite at_index_nil.
Qed.

Lemma next_index_single (forwardSearch : bool) (current candidate : string) :
  next_index forwardSearch current [candidate] = 0%Z.
Proof.
  unfold next_index. simpl.
  destruct (String.eqb candidate current); simpl.
  - unfold size_add. apply Z.mod_1_r.
  - destruct forwardSearch; [reflexivity|].
    unfold size_sub, to_size_t. simpl. apply Zmod_0_l.
Qed.

End CyclerInUse.

Lemma cycler_single {target : Target} (forwardSearch : bool)
    (currentPrefix currentSuffix candidate : string) :
  ObtainNextSuggestedSuffix forwardSearch currentPrefix currentSuffix
    [candidate] =
  match DropPrefix candidate currentPrefix with
  | Some suffix => Done suffix
  | None => Undefined
  end.
Proof.
  unfold ObtainNextSuggestedSuffix. now rewrite next_index_single.
Qed.

(** X9.  With exactly one candidate, which starts with the prefix, the
    cycler returns the rest of that candidate, for both directions, for
    every current suffix, found or not, and for every width of [size_t]. *)
Theorem ObtainNextSuggestedSuffix_single {target : Target}
    (forwardSearch : bool) (currentPrefix currentSuffix suffix : string) :
  next_index forwardSearch (currentPrefix ++ currentSuffix)
    [currentPrefix ++ suffix] = 0%Z /\
  ObtainNextSuggestedSuffix forwardSearch currentPrefix currentSuffix
    [currentPrefix ++ suffix] = Done suffix.
Proof.
  split; [apply next_index_single|].
  now rewrite cycler_single, DropPrefix_append.
Qed.

Lemma back_after_forward (N i : Z) :
  (0 <= i < N -> ((i + 1) mod N - 1 + N) mod N = i)%Z.
Proof.
  intros Hi.
  replace ((i + 1) mod N - 1 + N)%Z with ((i + 1) mod N + (N - 1))%Z by lia.
  rewrite Zplus_mod_idemp_l.
  replace (i + 1 + (N - 1))%Z with (i + 1 * N)%Z by lia.
  rewrite Z.mod_add by lia. apply Z.mod_small. lia.
Qed.

Lemma forward_after_back (N i : Z) :
  (0 <= i < N -> ((i - 1 + N) mod N + 1) mod N = i)%Z.
Proof.
  intros Hi. rewrite Zplus_mod_idemp_l.
  replace (i - 1 + N + 1)%Z with (i + 1 * N)%Z by lia.
  rewrite Z.mod_add by lia. apply Z.mod_small. lia.
Qed.

Section Cycles.
Context {target : Target}.
Variables (currentPrefix : string) (suitableRefs : list string).
Hypothesis Hnodup : NoDup suitableRefs.
Hypothesis Hmax : (Z.of_nat (List.length suitableRefs) <= PTRDIFF_MAX)%Z.
Hypothesis Hstart : common_prefix currentPrefix suitableRefs.

Let N : Z := Z.of_nat (List.length suitableRefs).

Lemma cycler_step (forwardSearch : bool) (i : nat) (currentSuffix : string) :
  nth_error suitableRefs i = Some (currentPrefix ++ currentSuffix) ->
  exists (k : nat) (newSuffix : string),
    Z.of_nat k = (if forwardSearch then (Z.of_nat i + 1) mod N
                  else (Z.of_nat i - 1 + N) mod N)%Z /\
    nth_error suitableRefs k = Some (currentPrefix ++ newSuffix) /\
    ObtainNextSuggestedSuffix forwardSearch currentPrefix currentSuffix
      suitableRefs = Done newSuffix.
Proof.
  intros Hi.
  assert (Hlt : i < List.length suitableRefs)
    by (apply nth_error_Some; congruence).
  assert (Hloc : located suitableRefs (currentPrefix ++ currentSuffix) i).
  { split; [exact Hi|]. intros j Hj Hj'.
    rewrite NoDup_nth_error in Hnodup.
    assert (i = j) by (apply Hnodup; [exact Hlt | congruence]). lia. }
  assert (Hne : suitableRefs <> []) by (intros E; rewrite E in Hlt; simpl in Hlt; lia).
  destruct (cycler_selects forwardSearch currentPrefix currentSuffix
              suitableRefs Hne Hmax) as (k & candidate & Hk & Hn & Hres).
  destruct (Hstart candidate (nth_error_In _ _ Hn)) as [newSuffix ->].
  exists k, newSuffix. split; [|split; [exact Hn|]].
  - rewrite <- Hk. now apply next_index_found.
  - now rewrite Hres, DropPrefix_append.
Qed.

Lemma cycle_lands (forwardSearch : bool) (n : nat) :
  forall (i : nat) (currentSuffix : string),
    nth_error suitableRefs i = Some (currentPrefix ++ currentSuffix) ->
    exists (k : nat) (newSuffix : string),
      Z.of_nat k = (if forwardSearch then (Z.of_nat i + Z.of_nat n) mod N
                    else (Z.of_nat i - Z.of_nat n) mod N)%Z /\
      nth_error suitableRefs k = Some (currentPrefix ++ newSuffix) /\
      cycle forwardSearch n currentPrefix currentSuffix suitableRefs
      = Done newSuffix.
Proof.
  induction n as [|n IH]; intros i currentSuffix Hi.
  - assert (Hlt : i < List.length suitableRefs)
      by (apply nth_error_Some; congruence).
    exists i, currentSuffix. split; [|split; [exact Hi | reflexivity]].
    destruct forwardSearch; rewrite ?Z.add_0_r, ?Z.sub_0_r, Z.mod_small;
      unfold N; lia.
  - destruct (cycler_step forwardSearch i currentSuffix Hi)
      as (k1 & s1 & Hk1 & Hn1 & Hres1).
    destruct (IH k1 s1 Hn1) as (k & s & Hk & Hn & Hres).
    assert (Hlt : i < List.length suitableRefs)
      by (apply nth_error_Some; congruence).
    exists k, s. split; [|split; [exact Hn|]].
    + rewrite Hk, Hk1, Nat2Z.inj_succ. destruct forwardSearch.
      * rewrite Zplus_mod_idemp_l. f_equal. lia.
      * rewrite Zminus_mod_idemp_l.
        replace (Z.of_nat i - 1 + N - Z.of_nat n)%Z
          with (Z.of_nat i - Z.succ (Z.of_nat n) + 1 * N)%Z by lia.
        apply Z.mod_add. unfold N. lia.
    + cbn [cycle]. rewrite Hres1. cbn [bind]. exact Hres.
Qed.

(** X10.  On the candidate set (no duplicate, every member starting with
    the prefix), a step of the cycler in one direction followed by a step in
    the other direction gives back the suffix it started from. *)
Theorem ObtainNextSuggestedSuffix_there_and_back (forwardSearch : bool)
    (i : nat) (currentSuffix : string) :
  nth_error suitableRefs i = Some (currentPrefix ++ currentSuffix) ->
  exists newSuffix,
    ObtainNextSuggestedSuffix forwardSearch currentPrefix currentSuffix
      suitableRefs = Done newSuffix /\
    ObtainNextSuggestedSuffix (negb forwardSearch) currentPrefix newSuffix
      suitableRefs = Done currentSuffix.
Proof.
  intros Hi.
  assert (Hlt : i < List.length suitableRefs)
    by (apply nth_error_Some; congruence).
  destruct (cycler_step forwardSearch i currentSuffix Hi)
    as (k1 & s1 & Hk1 & Hn1 & Hres1).
  destruct (cycler_step (negb forwardSearch) k1 s1 Hn1)
    as (k2 & s2 & Hk2 & Hn2 & Hres2).
  exists s1. split; [exact Hres1|].
  assert (k2 = i).
  { apply Nat2Z.inj. rewrite Hk2, Hk1. destruct forwardSearch; cbn [negb].
    - apply back_after_forward. unfold N. lia.
    - apply forward_after_back. unfold N. lia. }
  subst k2. rewrite Hi in Hn2. injection Hn2 as E.
  apply append_inj_l in E. now rewrite Hres2, E.
Qed.

(** X11.  On the candidate set, [n] steps of the cycler from the candidate
    at index [i] land on the candidate at index [(i + n) mod N] forward and
    [(i - n) mod N] backward.  So [N] steps come back to the start, and
    every candidate is reached in fewer than [N] steps. *)
Theorem cycle_visits_every_candidate (forwardSearch : bool) (i : nat)
    (currentSuffix : string) :
  nth_error suitableRefs i = Some (currentPrefix ++ currentSuffix) ->
  (forall n, exists (k : nat) (newSuffix : string),
      Z.of_nat k = (if forwardSearch then (Z.of_nat i + Z.of_nat n) mod N
                    else (Z.of_nat i - Z.of_nat n) mod N)%Z /\
      nth_error suitableRefs k = Some (currentPrefix ++ newSuffix) /\
      cycle forwardSearch n currentPrefix currentSuffix suitableRefs
      = Done newSuffix) /\
  cycle forwardSearch (List.length suitableRefs) currentPrefix currentSuffix
    suitableRefs = Done currentSuffix /\
  (forall j candidate,
      nth_error suitableRefs j = Some candidate ->
      exists n suffix,
        n < List.length suitableRefs /\
        candidate = currentPrefix ++ suffix /\
        cycle forwardSearch n currentPrefix currentSuffix suitableRefs
        = Done suffix).
Proof.
  intros Hi.
  assert (Hlt : i < List.length suitableRefs)
    by (apply nth_error_Some; congruence).
  split; [|split].
  - intros n. now apply cycle_lands.
  - destruct (cycle_lands forwardSearch (List.length suitableRefs) i
                currentSuffix Hi) as (k & s & Hk & Hn & Hres).
    assert (k = i).
    { apply Nat2Z.inj. rewrite Hk. fold N. destruct forwardSearch.
      - replace (Z.of_nat i + N)%Z with (Z.of_nat i + 1 * N)%Z by lia.
        rewrite Z.mod_add by (unfold N; lia).
        apply Z.mod_small. unfold N. lia.
      - replace (Z.of_nat i - N)%Z with (Z.of_nat i + -1 * N)%Z by lia.
        rewrite Z.mod_add by (unfold N; lia).
        apply Z.mod_small. unfold N. lia. }
    subst k. rewrite Hi in Hn. injection Hn as E.
    apply append_inj_l in E. now rewrite Hres, E.
  - intros j candidate Hj.
    assert (Hjlt : j < List.length suitableRefs)
      by (apply nth_error_Some; congruence).
    set (d := (if forwardSearch then (Z.of_nat j - Z.of_nat i) mod N
               else (Z.of_nat i - Z.of_nat j) mod N)%Z).
    assert (Hd : (0 <= d < N)%Z)
      by (unfold d; destruct forwardSearch; apply Z.mod_pos_bound;
          unfold N; lia).
    destruct (cycle_lands forwardSearch (Z.to_nat d) i currentSuffix Hi)
      as (k & s & Hk & Hn & Hres).
    assert (k = j).
    { apply Nat2Z.inj. rewrite Hk, Z2Nat.id by lia. unfold d.
      destruct forwardSearch.
      - rewrite Zplus_mod_idemp_r.
        replace (Z.of_nat i + (Z.of_nat j - Z.of_nat i))%Z with (Z.of_nat j)
          by lia.
        apply Z.mod_small. unfold N. lia.
      - rewrite Zminus_mod_idemp_r.
        replace (Z.of_nat i - (Z.of_nat i - Z.of_nat j))%Z with (Z.of_nat j)
          by lia.
        apply Z.mod_small. unfold N. lia. }
    subst k. rewrite Hj in Hn. injection Hn as ->.
    exists (Z.to_nat d), s. split; [unfold N in Hd; lia|].
    split; [reflexivity | exact Hres].
Qed.

End Cycles.

Lemma candidates_main_master :
  NoDup ["main"; "master"] /\
  (Z.of_nat (List.length ["main"; "master"]) <= @PTRDIFF_MAX x64)%Z /\
  common_prefix "ma" ["main"; "master"].
Proof.
  split; [|split].
  - constructor; [intros [E|[]]; discriminate E|].
    constructor; [intros [] | constructor].
  - rewrite PTRDIFF_MAX_x64. simpl. lia.
  - intros s [<-|[<-|[]]]; eexists; reflexivity.
Qed.

Lemma ObtainNextSuggestedSuffix_there_and_back_witness :
  exists newSuffix,
    @ObtainNextSuggestedSuffix x64 false "ma" "in" ["main"; "master"]
    = Done newSuffix /\
    @ObtainNextSuggestedSuffix x64 true "ma" newSuffix ["main"; "master"]
    = Done "in".
Proof.
  destruct candidates_main_master as (Hnodup & Hmax & Hstart).
  apply (@ObtainNextSuggestedSuffix_there_and_back x64 "ma"
           ["main"; "master"] Hnodup Hmax Hstart false 0 "in" eq_refl).
Defined.

Lemma cycle_visits_every_candidate_witness :
  @cycle x64 true 2 "ma" "in" ["main"; "master"] = Done "in".
Proof.
  destruct candidates_main_master as (Hnodup & Hmax & Hstart).
  apply (@cycle_visits_every_candidate x64 "ma" ["main"; "master"]
           Hnodup Hmax Hstart true 0 "in" eq_refl).
Defined.

(** ** The classifier and the enumeration *)

Lemma ptr_add_suffix (s : string) (n : nat) :
  exists before, s = before ++ ptr_add s n.
Proof.
  revert s; induction n as [|n IH]; intros s; [now exists ""|].
  destruct s as [|a s]; [now exists ""|].
  destruct (IH s) as [before E]. exists (String a before).
  cbn [ptr_add append]. now rewrite <- E.
Qed.

Lemma first_prefix_found (ref short : string) :
  first_prefix prefixes ref = Some short ->
  ref = "refs/heads/" ++ short \/ ref = "refs/tags/" ++ short.
Proof.
  unfold prefixes, first_prefix.
  destruct (StartsWith ref "refs/heads/") eqn:Hh.
  - apply StartsWith_iff in Hh. destruct Hh as [rest ->].
    rewrite ptr_add_append. intros [= <-]. now left.
  - destruct (StartsWith ref "refs/tags/") eqn:Ht; [|discriminate].
    apply StartsWith_iff in Ht. destruct Ht as [rest ->].
    rewrite ptr_add_append. intros [= <-]. now right.
Qed.

(** X12.  Every short name that [FilterReferences] passes on is the end of
    the reference, after one of the three category prefixes, and for a
    remote reference possibly after the remote name too: the reference is
    never passed on whole, and nothing is passed on for a reference under
    another prefix.  There are at most two short names. *)
Theorem FilterReferences_emits_suffixes (options : Options)
    (ref short : string) :
  In short (emitted (FilterReferences options ref)) ->
  (exists category,
      ref = category ++ short /\
      (category = "refs/heads/" \/ category = "refs/tags/" \/
       is_prefix remotePrefix category)) /\
  String.length short < String.length ref /\
  List.length (emitted (FilterReferences options ref)) <= 2.
Proof.
  intros Hin.
  assert (Hcat : exists category,
             ref = category ++ short /\
             (category = "refs/heads/" \/ category = "refs/tags/" \/
              is_prefix remotePrefix category)).
  { unfold FilterReferences in Hin.
    destruct (first_prefix prefixes ref) as [s|] eqn:Hf.
    - destruct Hin as [<-|[]].
      destruct (first_prefix_found _ _ Hf) as [->| ->]; eexists; eauto.
    - destruct (StartsWith ref remotePrefix) eqn:Hr; [|destruct Hin].
      apply StartsWith_iff in Hr. destruct Hr as [rest ->].
      rewrite ptr_add_append in Hin.
      assert (Hrest : short = rest ->
                exists category,
                  remotePrefix ++ rest = category ++ short /\
                  (category = "refs/heads/" \/ category = "refs/tags/" \/
                   is_prefix remotePrefix category)).
      { intros ->. exists remotePrefix. split; [reflexivity|].
        right; right. apply is_prefix_refl. }
      destruct (stripRemoteName options).
      + destruct (strchr rest "/") as [slashPtr|] eqn:Hs.
        * destruct Hin as [<-|[<-|[]]]; [now apply Hrest|].
          destruct (strchr_found _ _ _ Hs) as (k & -> & _).
          rewrite ptr_inc_ptr_add.
          destruct (ptr_add_suffix rest (S k)) as [before E].
          exists (remotePrefix ++ before). split.
          -- rewrite append_assoc. now rewrite <- E.
          -- right; right. now exists before.
        * destruct Hin as [<-|[]]. now apply Hrest.
      + destruct Hin as [<-|[]]. now apply Hrest. }
  split; [exact Hcat|]. split; [|apply length_emitted].
  destruct Hcat as (category & -> & Hc). rewrite length_append.
  destruct Hc as [->|[->|[more ->]]]; simpl; lia.
Qed.

Lemma FilterReferences_emits_suffixes_witness :
  In "feature/x"
    (emitted (FilterReferences (mkOptions true true false)
                "refs/remotes/origin/feature/x")) /\
  String.length "feature/x" < String.length "refs/remotes/origin/feature/x".
Proof.
  assert (Hin : In "feature/x"
                  (emitted (FilterReferences (mkOptions true true false)
                              "refs/remotes/origin/feature/x")))
    by (right; left; reflexivity).
  split; [exact Hin|].
  apply (FilterReferences_emits_suffixes _ _ _ Hin).
Defined.

Lemma FilterReferences_without_strip (suggestNext dialog : bool) (ref : string) :
  ending (FilterReferences (mkOptions false suggestNext dialog) ref) = Done tt.
Proof.
  destruct (FilterReferences_ending (mkOptions false suggestNext dialog) ref)
    as [E|(_ & Hstrip & _)]; [exact E | discriminate Hstrip].
Qed.

Lemma FilterReferences_strip_adds (suggestNext dialog : bool) (ref : string) :
  exists more,
    emitted (FilterReferences (mkOptions true suggestNext dialog) ref)
    = (emitted (FilterReferences (mkOptions false suggestNext dialog) ref)
       ++ more)%list.
Proof.
  unfold FilterReferences.
  destruct (first_prefix prefixes ref); [now exists []|].
  destruct (StartsWith ref remotePrefix); [|now exists []].
  cbn [stripRemoteName].
  destruct (strchr _ "/") as [slashPtr|]; [|now exists []].
  now exists [ptr_inc slashPtr].
Qed.

Lemma ObtainSuitableRefsBy_aborts (options : Options) (repo : git_repository)
    (ref : string) :
  In ref repo ->
  ending (FilterReferences options ref) = AssertionFailed ->
  forall suitableRefs isSuitableRef,
    ObtainSuitableRefsBy options repo suitableRefs isSuitableRef
    = AssertionFailed.
Proof.
  induction repo as [|r repo IH]; intros Hin Hbad acc f; [destruct Hin|].
  simpl. destruct (FilterReferences_ending options r) as [E|[E _]];
    rewrite E; cbn [bind]; [|reflexivity].
  destruct Hin as [->|Hin]; [congruence|]. now apply IH.
Qed.

Lemma ending_AssertionFailed_iff (options : Options) (ref : string) :
  ending (FilterReferences options ref) = AssertionFailed <->
  stripRemoteName options = true /\ malformed_remote ref.
Proof.
  split.
  - intros E. destruct (FilterReferences_ending options ref)
      as [E'|(_ & Hs & Hm)]; [congruence | now split].
  - intros (Hs & rest & -> & Hno).
    rewrite FilterReferences_remote, Hs.
    now rewrite (proj2 (strchr_none rest "/") Hno).
Qed.

(** X13.  Turning [stripRemoteName] on only adds short names: what a
    reference gives with the option off is the beginning of what it gives
    with the option on, and with the option off the classifier never
    reaches its assertion.  So when the enumerations with the option off
    and with the option on both return, the selection of the first is
    contained in the selection of the second. *)
Theorem stripRemoteName_only_adds (suggestNext dialog : bool)
    (repo : git_repository) (isSuitableRef : string -> bool) :
  let off := mkOptions false suggestNext dialog in
  let on := mkOptions true suggestNext dialog in
  (forall ref, exists more,
      emitted (FilterReferences on ref)
      = (emitted (FilterReferences off ref) ++ more)%list) /\
  (forall ref, ending (FilterReferences off ref) = Done tt) /\
  (forall refs_off refs_on,
      ObtainSuitableRefsBy off repo [] isSuitableRef = Done refs_off ->
      ObtainSuitableRefsBy on repo [] isSuitableRef = Done refs_on ->
      incl refs_off refs_on).
Proof.
  intros off on. split; [|split].
  - intros ref. apply FilterReferences_strip_adds.
  - intros ref. apply FilterReferences_without_strip.
  - intros refs_off refs_on Hoff Hon.
    rewrite (ObtainSuitableRefsBy_done _ _ _ _ _ Hoff [] isSuitableRef) in Hoff.
    rewrite (ObtainSuitableRefsBy_done _ _ _ _ _ Hon [] isSuitableRef) in Hon.
    injection Hoff as <-. injection Hon as <-. simpl app.
    intros x Hx. apply filter_In in Hx. destruct Hx as [Hx Hf].
    apply filter_In. split; [|exact Hf].
    unfold short_names in *. apply in_flat_map in Hx.
    destruct Hx as (ref & Href & Hx). apply in_flat_map.
    exists ref. split; [exact Href|].
    destruct (FilterReferences_strip_adds suggestNext dialog ref) as [more E].
    fold on off in E. rewrite E. apply in_or_app. now left.
Qed.

(** X14.  When the enumeration returns, the vector holds what it held
    before followed by the short names, in the order of the enumeration,
    that the predicate accepts, and no classification has aborted: no
    reference under [refs/remotes/] lacked its ['/'] with [stripRemoteName]
    on.  When such a reference is among those the enumeration yields and
    the option is on, the enumeration stops on the assertion of the
    classifier, whatever the predicate and the vector. *)
Theorem ObtainSuitableRefsBy_selects (options : Options)
    (repo : git_repository) (suitableRefs : list string)
    (isSuitableRef : string -> bool) :
  (forall refs,
      ObtainSuitableRefsBy options repo suitableRefs isSuitableRef = Done refs ->
      refs = (suitableRefs
              ++ filter isSuitableRef (short_names options repo))%list /\
      (forall ref, In ref repo ->
         ending (FilterReferences options ref) = Done tt) /\
      ~ (stripRemoteName options = true /\
         exists ref, In ref repo /\ malformed_remote ref)) /\
  (stripRemoteName options = true ->
   forall ref, In ref repo -> malformed_remote ref ->
     ObtainSuitableRefsBy options repo suitableRefs isSuitableRef
     = AssertionFailed).
Proof.
  assert (Habort : stripRemoteName options = true ->
            forall ref, In ref repo -> malformed_remote ref ->
              ObtainSuitableRefsBy options repo suitableRefs isSuitableRef
              = AssertionFailed).
  { intros Hs ref Hin Hm. apply (ObtainSuitableRefsBy_aborts _ _ ref Hin).
    now apply ending_AssertionFailed_iff. }
  split; [|exact Habort].
  intros refs H. split; [|split].
  - pose proof (ObtainSuitableRefsBy_done _ _ _ _ _ H suitableRefs
                  isSuitableRef) as E.
    rewrite H in E. now injection E.
  - intros ref Hin.
    destruct (FilterReferences_ending options ref) as [E|[E _]]; [exact E|].
    rewrite (ObtainSuitableRefsBy_aborts _ _ ref Hin E) in H. discriminate H.
  - intros (Hs & ref & Hin & Hm).
    rewrite (Habort Hs ref Hin Hm) in H. discriminate H.
Qed.

Lemma ObtainSuitableRefsBy_selects_witness :
  ObtainSuitableRefsBy (mkOptions true true false)
    ["refs/heads/master"; "refs/remotes/origin"; "refs/heads/main"] []
    (fun n => StartsWith n "ma") = AssertionFailed.
Proof.
  apply (proj2 (ObtainSuitableRefsBy_selects (mkOptions true true false)
           ["refs/heads/master"; "refs/remotes/origin"; "refs/heads/main"] []
           (fun n => StartsWith n "ma")) eq_refl "refs/remotes/origin");
    [right; now left |].
  exists "origin". split; [reflexivity|].
  intros [|[|[|[|[|[|[|k]]]]]]]; discriminate.
Defined.

(** ** The end of the enumeration *)

Lemma ObtainSuitableRefsBy_outcomes (options : Options)
    (repo : git_repository) :
  forall suitableRefs isSuitableRef,
    (exists refs,
        ObtainSuitableRefsBy options repo suitableRefs isSuitableRef
        = Done refs) \/
    ObtainSuitableRefsBy options repo suitableRefs isSuitableRef
    = AssertionFailed.
Proof.
  induction repo as [|ref repo IH]; intros acc f; simpl;
    [left; now exists acc|].
  destruct (FilterReferences_ending options ref) as [->|[-> _]]; simpl;
    [apply IH | now right].
Qed.

(** X19.  [ObtainSuitableRefsBy] against the answers of the backend.  When
    [git_reference_next] ends with [GIT_ITEROVER] the function is the loop
    over the names it has yielded.  When it ends with another error the
    function never returns: it stops on an assertion, that of the classifier
    or the final one, so the caller never gets the selection of a part of
    the references.  When the function returns, the enumeration has ended
    with [GIT_ITEROVER], no classification has aborted and the vector holds
    what it held followed by the accepted short names. *)
Theorem ObtainSuitableRefsBy_backend_outcome (GIT_ITEROVER : Z)
    (options : Options) (enumeration : git_enumeration)
    (suitableRefs : list string) (isSuitableRef : string -> bool) :
  (last_error enumeration = GIT_ITEROVER ->
   ObtainSuitableRefsBy_backend GIT_ITEROVER options enumeration suitableRefs
     isSuitableRef
   = ObtainSuitableRefsBy options (yielded enumeration) suitableRefs
       isSuitableRef) /\
  (last_error enumeration <> GIT_ITEROVER ->
   ObtainSuitableRefsBy_backend GIT_ITEROVER options enumeration suitableRefs
     isSuitableRef = AssertionFailed) /\
  (forall refs,
      ObtainSuitableRefsBy_backend GIT_ITEROVER options enumeration
        suitableRefs isSuitableRef = Done refs ->
      last_error enumeration = GIT_ITEROVER /\
      (forall ref, In ref (yielded enumeration) ->
         ending (FilterReferences options ref) = Done tt) /\
      refs = (suitableRefs
              ++ filter isSuitableRef
                   (short_names options (yielded enumeration)))%list).
Proof.
  unfold ObtainSuitableRefsBy_backend.
  destruct (ObtainSuitableRefsBy_outcomes options (yielded enumeration)
              suitableRefs isSuitableRef) as [[refs0 E]|E]; rewrite E;
    cbn [bind].
  - split; [|split].
    + intros ->. now rewrite Z.eqb_refl.
    + intros Hne. now rewrite (proj2 (Z.eqb_neq _ _) Hne).
    + intros refs.
      destruct (Z.eqb_spec (last_error enumeration) GIT_ITEROVER) as [Hl|Hl];
        [|discriminate].
      intros [= <-]. split; [exact Hl|]. split.
      * intros ref Hin.
        destruct (FilterReferences_ending options ref) as [Hd|[Hd _]];
          [exact Hd|].
        rewrite (ObtainSuitableRefsBy_aborts _ _ ref Hin Hd) in E.
        discriminate E.
      * pose proof (ObtainSuitableRefsBy_done _ _ _ _ _ E suitableRefs
                      isSuitableRef) as E'.
        rewrite E in E'. now injection E'.
  - split; [|split]; [reflexivity | reflexivity | discriminate].
Qed.

(** ** The orchestrator on every repository *)

Lemma unique_constant (name : string) (l : list string) :
  l <> [] -> (forall x, In x l -> x = name) -> unique l = [name].
Proof.
  induction l as [|a l IH]; intros Hne Hall; [congruence|].
  assert (a = name) by (apply Hall; now left). subst a.
  destruct l as [|b l]; [reflexivity|].
  assert (b = name) by (apply Hall; right; now left). subst b.
  rewrite unique_cons2, String.eqb_refl.
  apply IH; [discriminate|]. intros x Hx. apply Hall. now right.
Qed.

Lemma SelectSuitableRefs_members (options : Options) (repo : git_repository)
    (currentPrefix : string) (refs : list string) :
  SelectSuitableRefs options repo currentPrefix = Done refs ->
  incl refs (short_names options repo).
Proof.
  intros Hsel. destruct (SelectSuitableRefs_done _ _ _ _ Hsel) as [_ ->].
  destruct (filter (fun n => StartsWith n currentPrefix)
              (short_names options repo)) eqn:E; [|rewrite <- E];
    intros x Hx; now apply filter_In in Hx.
Qed.

Section OrchestratorEverywhere.
Context {target : Target} {host : Host}.

(** X6.  When the typed prefix has no punctuation and no uppercase letter
    and no short name starts with it, [TransformCmdLine] leaves the command
    line as it is: the fallback finds nothing either. *)
Theorem TransformCmdLine_marker_free_unmatched
    (ShowRefsDialog : list string -> string -> string) (options : Options)
    (cmdLine : CmdLine) (repo : git_repository) :
  let currentPrefix := w2mb (GetUserPrefix cmdLine) in
  no_marker currentPrefix = true ->
  ObtainSuitableRefsByStrictPrefix options repo currentPrefix [] = Done [] ->
  ObtainSuitableRefsByPartialPrefixes options repo currentPrefix [] = Done [] /\
  TransformCmdLine ShowRefsDialog options cmdLine repo = Done cmdLine.
Proof.
  intros currentPrefix Hm Hstrict.
  assert (Hpartial : ObtainSuitableRefsByPartialPrefixes options repo
                       currentPrefix [] = Done []).
  { unfold ObtainSuitableRefsByStrictPrefix,
      ObtainSuitableRefsByPartialPrefixes in *.
    rewrite (ObtainSuitableRefsBy_done _ _ _ _ _ Hstrict).
    rewrite (ObtainSuitableRefsBy_done _ _ _ _ _ Hstrict []
               (fun n => StartsWith n currentPrefix)) in Hstrict.
    rewrite <- Hstrict. do 2 f_equal.
    apply filter_ext. intros n. now apply marker_free_matcher. }
  split; [exact Hpartial|].
  apply TransformCmdLine_nothing_selected. fold currentPrefix.
  unfold SelectSuitableRefs. rewrite Hstrict. cbn [bind]. exact Hpartial.
Qed.

Lemma TransformCmdLine_aborts
    (ShowRefsDialog : list string -> string -> string) (options : Options)
    (cmdLine : CmdLine) (repo : git_repository) (ref : string) :
  In ref repo ->
  ending (FilterReferences options ref) = AssertionFailed ->
  TransformCmdLine ShowRefsDialog options cmdLine repo = AssertionFailed.
Proof.
  intros Hin Hbad.
  unfold TransformCmdLine, SelectSuitableRefs, ObtainSuitableRefsByStrictPrefix.
  now rewrite (ObtainSuitableRefsBy_aborts _ _ _ Hin Hbad).
Qed.

(** X15.  One reference under [refs/remotes/] with no ['/'] after that
    prefix, among those the enumeration yields, stops every invocation
    with [stripRemoteName] on at the assertion of the classifier: whatever
    was typed, whether or not the reference would match it, and wherever
    it stands in the enumeration.  The command line is not written. *)
Theorem TransformCmdLine_stops_on_malformed_remote
    (ShowRefsDialog : list string -> string -> string) (options : Options)
    (cmdLine : CmdLine) (repo : git_repository) (ref : string) :
  stripRemoteName options = true ->
  In ref repo ->
  malformed_remote ref ->
  ObtainSuitableRefsByStrictPrefix options repo
    (w2mb (GetUserPrefix cmdLine)) [] = AssertionFailed /\
  TransformCmdLine ShowRefsDialog options cmdLine repo = AssertionFailed.
Proof.
  intros Hs Hin Hm.
  assert (Hbad : ending (FilterReferences options ref) = AssertionFailed)
    by now apply ending_AssertionFailed_iff.
  split.
  - unfold ObtainSuitableRefsByStrictPrefix.
    now apply (ObtainSuitableRefsBy_aborts _ _ ref).
  - now apply (TransformCmdLine_aborts _ _ _ _ ref).
Qed.

(** X16.  When every candidate is the same name, [TransformCmdLine]
    completes the typed prefix to that name; when the name is already typed
    in full and the dialog is off, it writes the empty suffix into the
    suggested-suffix region. *)
Theorem TransformCmdLine_completes_the_only_candidate
    (ShowRefsDialog : list string -> string -> string) (options : Options)
    (cmdLine : CmdLine) (repo : git_repository) (refs : list string)
    (name : string) :
  let currentPrefix := w2mb (GetUserPrefix cmdLine) in
  SelectSuitableRefs options repo currentPrefix = Done refs ->
  refs <> [] ->
  (forall x, In x refs -> x = name) ->
  unique (sort refs) = [name] /\
  (name <> currentPrefix ->
   TransformCmdLine ShowRefsDialog options cmdLine repo
   = Done (ReplaceUserPrefix cmdLine (mb2w name))) /\
  (name = currentPrefix ->
   showDialog options = false ->
   TransformCmdLine ShowRefsDialog options cmdLine repo
   = Done (ReplaceSuggestedSuffix cmdLine (mb2w ""))).
Proof.
  intros currentPrefix Hsel Hne Hall.
  assert (Hone : unique (sort refs) = [name]).
  { apply unique_constant.
    - intros E. apply Hne. apply length_zero_iff_nil.
      rewrite <- length_sort, E. reflexivity.
    - intros x Hx. apply Hall. now apply In_sort. }
  assert (Hcommon : FindCommonPrefix (unique (sort refs)) = name).
  { rewrite Hone. pose proof (FindCommonPrefix_cons name []) as E.
    simpl in E. now injection E. }
  rewrite (TransformCmdLine_selected _ _ _ _ refs Hsel Hne). cbv zeta.
  fold currentPrefix. rewrite Hcommon.
  split; [exact Hone|]. split.
  - intros Hdiff.
    destruct (String.eqb_spec name currentPrefix); [contradiction|reflexivity].
  - intros <- Hoff. rewrite String.eqb_refl, Hoff, Hone. cbn [negb].
    rewrite cycler_single.
    rewrite <- (append_empty_r name) at 1.
    now rewrite DropPrefix_append.
Qed.

End OrchestratorEverywhere.

(** X17.  A commit loses no candidate: every candidate of an invocation
    starts with the common prefix it computes, and is again a candidate,
    by strict prefix, of the invocation on that common prefix.  After a
    strict selection the candidates of the two invocations are the same
    names; after the fallback the second invocation may have more. *)
Theorem commit_keeps_candidates (options : Options) (repo : git_repository)
    (currentPrefix : string) (refs : list string) :
  SelectSuitableRefs options repo currentPrefix = Done refs ->
  refs <> [] ->
  let newPrefix := FindCommonPrefix (unique (sort refs)) in
  exists refs',
    SelectSuitableRefs options repo newPrefix = Done refs' /\
    refs' = filter (fun n => StartsWith n newPrefix) (short_names options repo) /\
    incl refs refs' /\
    (forall strict,
        ObtainSuitableRefsByStrictPrefix options repo currentPrefix []
        = Done strict ->
        strict <> [] ->
        is_prefix currentPrefix newPrefix /\ incl refs' refs).
Proof.
  intros Hsel Hne newPrefix.
  set (names := short_names options repo).
  assert (Hnp : newPrefix = FindCommonPrefix refs)
    by apply FindCommonPrefix_unique_sort.
  pose proof (SelectSuitableRefs_members _ _ _ _ Hsel) as Hincl.
  destruct (strict_selection_on_common_prefix names refs Hne Hincl)
    as (Hin & Hne' & _).
  rewrite <- Hnp in Hin, Hne'.
  exists (filter (fun n => StartsWith n newPrefix) names).
  split; [|split; [reflexivity|split; [exact Hin|]]].
  - rewrite (SelectSuitableRefs_again _ _ _ newPrefix _ Hsel). fold names.
    destruct (filter (fun n => StartsWith n newPrefix) names);
      [congruence | reflexivity].
  - intros strict Hstrict Hsne.
    destruct (SelectSuitableRefs_done _ _ _ _ Hsel) as [Hs Hrefs].
    rewrite Hs in Hstrict. injection Hstrict as <-. fold names in Hrefs, Hsne.
    assert (Hr : refs = filter (fun n => StartsWith n currentPrefix) names)
      by (destruct (filter (fun n => StartsWith n currentPrefix) names);
          [congruence | exact Hrefs]).
    assert (Hext : is_prefix currentPrefix newPrefix).
    { rewrite Hnp. destruct (FindCommonPrefix_greatest refs) as [_ Hmax].
      apply Hmax; trivial. rewrite Hr. apply strict_candidates_start. }
    split; [exact Hext|].
    intros x Hx. apply filter_In in Hx. destruct Hx as [Hx Hsw].
    rewrite Hr. apply filter_In. split; [exact Hx|].
    apply StartsWith_iff. apply StartsWith_iff in Hsw.
    exact (is_prefix_trans _ _ _ Hext Hsw).
Qed.

Lemma TransformCmdLine_marker_free_unmatched_witness :
  @TransformCmdLine x64 SplitHost (fun _ _ => "")
    (mkOptions true true false) (mkSplitLine "dev" "sfx")
    ["refs/heads/master"; "refs/remotes/origin/Dev/v2"]
  = Done (mkSplitLine "dev" "sfx").
Proof.
  apply (@TransformCmdLine_marker_free_unmatched x64 SplitHost); reflexivity.
Defined.

Lemma TransformCmdLine_stops_on_malformed_remote_witness :
  @TransformCmdLine x64 SplitHost (fun _ _ => "")
    (mkOptions true true false) (mkSplitLine "ma" "")
    ["refs/heads/master"; "refs/remotes/origin"]
  = AssertionFailed.
Proof.
  apply (@TransformCmdLine_stops_on_malformed_remote x64 SplitHost
           (fun _ _ => "") (mkOptions true true false) (mkSplitLine "ma" "")
           ["refs/heads/master"; "refs/remotes/origin"] "refs/remotes/origin").
  - reflexivity.
  - right; now left.
  - exists "origin". split; [reflexivity|].
    intros [|[|[|[|[|[|[|k]]]]]]]; discriminate.
Defined.

Lemma TransformCmdLine_completes_the_only_candidate_witness :
  @TransformCmdLine x64 SplitHost (fun _ _ => "")
    (mkOptions true true false) (mkSplitLine "mas" "")
    ["refs/heads/master"; "refs/heads/main"; "refs/remotes/origin/master"]
  = Done (mkSplitLine "master" "").
Proof.
  apply (@TransformCmdLine_completes_the_only_candidate x64 SplitHost
           (fun _ _ => "") (mkOptions true true false) (mkSplitLine "mas" "")
           ["refs/heads/master"; "refs/heads/main"; "refs/remotes/origin/master"]
           ["master"; "master"] "master").
  - reflexivity.
  - discriminate.
  - intros x [<-|[<-|[]]]; reflexivity.
  - discriminate.
Defined.

Lemma commit_keeps_candidates_witness :
  exists refs',
    @SelectSuitableRefs (mkOptions false true false)
      ["refs/heads/svn/trunk"; "refs/heads/svn/tags"; "refs/heads/svn-old"]
      "svn/t" = Done refs' /\
    incl ["svn/trunk"; "svn/tags"] refs'.
Proof.
  destruct (commit_keeps_candidates (mkOptions false true false)
              ["refs/heads/svn/trunk"; "refs/heads/svn/tags"; "refs/heads/svn-old"]
              "s/t" ["svn/trunk"; "svn/tags"] eq_refl ltac:(discriminate))
    as (refs' & Hsel & _ & Hin & _).
  exists refs'. split; [exact Hsel | exact Hin].
Defined.

(** ** Typing more *)

Lemma matcher_shorter_prefix (typed more : string) :
  forall ref,
    RefMayBeEncodedByPartialPrefix ref (typed ++ more) = true ->
    RefMayBeEncodedByPartialPrefix ref typed = true.
Proof.
  induction typed as [|p typed IH]; intros ref; [reflexivity|].
  cbn [append RefMayBeEncodedByPartialPrefix].
  destruct (ispunct p || isupper p).
  - destruct (strchr ref p); [apply IH | trivial].
  - destruct ref as [|c ref]; [trivial|].
    destruct (Ascii.eqb p c); [apply IH | trivial].
Qed.

(** X18.  Each strategy on its own narrows when more is typed: a name
    that the strict test, or the matcher, accepts for the typed text followed
    by more characters is accepted by the same test for the typed text
    alone.  The candidates of an invocation (strict, else fallback) do not
    narrow in general: with the branches Main and fooMaster, typing M
    selects Main and typing Mas selects fooMaster.  What holds of them:
    every candidate for the longer text is accepted by the matcher for the
    shorter one, and when the longer text has strict candidates they are
    candidates for the shorter text. *)
Theorem typing_more_narrows_each_strategy :
  (forall typed more names,
      incl (filter (fun n => StartsWith n (typed ++ more)) names)
           (filter (fun n => StartsWith n typed) names) /\
      incl (filter (fun n => RefMayBeEncodedByPartialPrefix n (typed ++ more))
              names)
           (filter (fun n => RefMayBeEncodedByPartialPrefix n typed) names)) /\
  (forall typed more options repo refs refs',
      SelectSuitableRefs options repo typed = Done refs ->
      SelectSuitableRefs options repo (typed ++ more) = Done refs' ->
      (forall x, In x refs' -> RefMayBeEncodedByPartialPrefix x typed = true) /\
      (forall strict',
          ObtainSuitableRefsByStrictPrefix options repo (typed ++ more) []
          = Done strict' ->
          strict' <> [] -> incl refs' refs)) /\
  (let options := mkOptions false true false in
   let repo := ["refs/heads/Main"; "refs/heads/fooMaster"] in
   SelectSuitableRefs options repo "M" = Done ["Main"] /\
   SelectSuitableRefs options repo ("M" ++ "as") = Done ["fooMaster"]).
Proof.
  assert (Hstrict : forall typed more x,
             StartsWith x (typed ++ more) = true -> StartsWith x typed = true).
  { intros typed more x Hx. apply StartsWith_iff. apply StartsWith_iff in Hx.
    apply (is_prefix_trans typed (typed ++ more) x); [now exists more | exact Hx]. }
  split; [|split].
  - intros typed more names. split; intros x Hx; apply filter_In in Hx;
      destruct Hx as [Hin Hx]; apply filter_In; (split; [exact Hin|]).
    + now apply (Hstrict typed more).
    + now apply (matcher_shorter_prefix typed more).
  - intros typed more options repo refs refs' Hsel Hsel'.
    destruct (SelectSuitableRefs_done _ _ _ _ Hsel) as [_ Hrefs].
    destruct (SelectSuitableRefs_done _ _ _ _ Hsel') as [Hs' Hrefs'].
    set (names := short_names options repo) in *.
    split.
    + intros x Hx. rewrite Hrefs' in Hx.
      apply (matcher_shorter_prefix typed more).
      destruct (filter (fun n => StartsWith n (typed ++ more)) names) eqn:E;
        [|rewrite <- E in Hx]; apply filter_In in Hx; destruct Hx as [_ Hx];
        [exact Hx|].
      apply StartsWith_iff in Hx. destruct Hx as [rest ->].
      apply strict_prefix_is_partial.
    + intros strict' Hstrict' Hne x Hx.
      rewrite Hs' in Hstrict'. injection Hstrict' as <-.
      assert (Hx' : In x (filter (fun n => StartsWith n (typed ++ more)) names)).
      { rewrite Hrefs' in Hx.
        destruct (filter (fun n => StartsWith n (typed ++ more)) names);
          [congruence | exact Hx]. }
      apply filter_In in Hx'. destruct Hx' as [Hin Hsw].
      assert (Hx'' : In x (filter (fun n => StartsWith n typed) names))
        by (apply filter_In; split; [exact Hin | now apply (Hstrict typed more)]).
      rewrite Hrefs.
      destruct (filter (fun n => StartsWith n typed) names);
        [destruct Hx'' | exact Hx''].
  - split; reflexivity.
Qed.
